(** * Moby: the event-driven simulator (EventDrivenSimulator.cpp, Event.h)

    A shallow embedding of the event-driven stepping engine of Moby:
    event classification, the contact-parameter lookup, the event-set
    builder, the time-of-impact walk [find_TOI], the event handler with its
    tolerance table, and the outer [step] loop.

    Numbers.  A C++ [double] is embedded as an exact rational ([Q]):
    comparisons and the arithmetic of the stepping code are kept, rounding,
    NaN and the infinities are outside the model.  The two constants taken
    from [std::numeric_limits<double>] are given their exact values.

    Collaborators.  The classes that the simulator calls but that are not
    part of these sources (bodies and their dynamics, collision detectors,
    the impact resolver, [Event.cpp], the comparator of the tolerance map,
    [std::sort]) are parameters of the embedding.  Of [std::sort] the
    implementation of libstdc++ is embedded as well, for the runs in which
    the order of events of equal time matters.

    Left out: logging, timing, visualization.  No callback is registered.
    An assertion of the source is a condition on the runs that are
    embedded; the debugging check of interpenetration is embedded on its
    own. *)

From Stdlib Require Import QArith Qabs Lqa.
From stdpp Require Import base option list sorting gmap.

Local Open Scope Q_scope.

(** ** Scalars *)

Abbreviation double := Q.

(** [a < b], [a > b] and [a <= b] on doubles, as booleans. *)
Definition dlt (a b : double) : bool :=
  match a ?= b with Lt => true | _ => false end.
Definition dgt (a b : double) : bool := dlt b a.
Definition dle (a b : double) : bool := negb (dlt b a).

(** [std::numeric_limits<double>::epsilon()] = 2^-52. *)
Definition DBL_EPSILON : double := 1 # (2 ^ 52).

(** [std::numeric_limits<double>::max()] = 2^1024 - 2^971. *)
Definition DBL_MAX : double := inject_Z (2 ^ 1024 - 2 ^ 971).

(** [std::fabs]. *)
Definition fabs (x : double) : double := Qabs x.

(** ** Ravelin::VectorNd, as far as the stepping code uses it *)

Abbreviation VectorNd := (list double).

(** [v *= a] *)
Definition vec_scale (v : VectorNd) (a : double) : VectorNd :=
  map (fun x => x * a) v.

(** [u += v] *)
Definition vec_add (u v : VectorNd) : VectorNd := zip_with Qplus u v.

(** [v.segment(a, b)]: the entries [a, b). *)
Definition segment (v : VectorNd) (a b : nat) : VectorNd :=
  take (b - a) (drop a v).

(** ** Objects referred to by pointer

    A [BasePtr] is the address of a [Base] object (geometry, single body,
    articulated body, joint). *)

Abbreviation BasePtr := nat.

(** [Ravelin::sorted_pair<BasePtr>] and [make_sorted_pair]. *)
Abbreviation sorted_pair := (BasePtr * BasePtr)%type.

Definition make_sorted_pair (a b : BasePtr) : sorted_pair :=
  if (a <=? b)%nat then (a, b) else (b, a).

(** A single body: its address, whether it is a [RigidBody] (the
    [dynamic_pointer_cast<RigidBody>] of [get_contact_parameters]) and what
    [get_articulated_body()] gives ([None] for a null pointer). *)
Record SingleBody : Type := mkSingleBody {
  sb_ptr : BasePtr;
  sb_is_rigid_body : bool;
  rb_articulated_body : option BasePtr
}.

(** A collision geometry with its single body (asserted non-null by
    [get_contact_parameters]). *)
Record CollisionGeometry : Type := mkCollisionGeometry {
  geom_ptr : BasePtr;
  get_single_body : SingleBody
}.

Record ContactParameters : Type := mkContactParameters {
  cp_mu_coulomb : double;
  cp_mu_viscous : double;
  cp_epsilon : double;
  cp_NK : nat
}.

(** [Ravelin::Point3d]. *)
Abbreviation Point3d := (double * double * double)%type.

(** ** Event (Event.h) *)

Inductive EventType : Type := eNone | eContact | eLimit | eConstraint.
Inductive EventClass : Type :=
  eUndetermined | eSeparating | eResting | eImpacting.

Record Event : Type := mkEvent {
  event_type : EventType;
  t : double;                 (* the time that the event occurs [0,1] *)
  t_true : double;            (* the "real" time that the event occurs *)
  limit_joint : BasePtr;
  limit_epsilon : double;
  limit_dof : nat;
  limit_upper : bool;
  constraint_joint : BasePtr;
  contact_point : Point3d;    (* the point contact (for contact events) *)
  contact_geom1 : CollisionGeometry;
  contact_geom2 : CollisionGeometry;
  contact_mu_coulomb : double;
  contact_mu_viscous : double;
  contact_epsilon : double;
  contact_NK : nat;
  tol : double                (* tolerance for the event *)
}.

Definition set_t_true (x : double) (e : Event) : Event :=
  mkEvent (event_type e) (t e) x (limit_joint e) (limit_epsilon e)
    (limit_dof e) (limit_upper e) (constraint_joint e) (contact_point e)
    (contact_geom1 e) (contact_geom2 e) (contact_mu_coulomb e) (contact_mu_viscous e)
    (contact_epsilon e) (contact_NK e) (tol e).

Definition set_tol (x : double) (e : Event) : Event :=
  mkEvent (event_type e) (t e) (t_true e) (limit_joint e) (limit_epsilon e)
    (limit_dof e) (limit_upper e) (constraint_joint e) (contact_point e)
    (contact_geom1 e) (contact_geom2 e) (contact_mu_coulomb e) (contact_mu_viscous e)
    (contact_epsilon e) (contact_NK e) x.

(** [bool operator<(const Event& e) const { return t < e.t; }] *)
Definition event_lt (a b : Event) : bool := dlt (t a) (t b).

(** The order in which [std::sort] leaves two events: the later one is
    not less than the earlier one. *)
Definition time_le (a b : Event) : Prop := t a <= t b.

(** Modelled from the spec: [Event::set_contact_parameters] is defined in
    Event.cpp, which is not among the sources; it copies the material
    parameters (Coulomb and viscous friction, restitution, friction-cone
    edge count) into the contact event. *)
Definition set_contact_parameters (c : ContactParameters) (e : Event) : Event :=
  mkEvent (event_type e) (t e) (t_true e) (limit_joint e) (limit_epsilon e)
    (limit_dof e) (limit_upper e) (constraint_joint e) (contact_point e)
    (contact_geom1 e) (contact_geom2 e) (cp_mu_coulomb c) (cp_mu_viscous c)
    (cp_epsilon c) (cp_NK c) (tol e).

(** ** Bodies

    The body collaborator as the simulator sees it: a store of generalized
    coordinates (Euler form) and of the generalized velocity (spatial
    form), read and written through get/set. *)

Record Body : Type := mkBody {
  body_ptr : BasePtr;
  body_is_articulated : bool;      (* dynamic_pointer_cast<ArticulatedBody> *)
  body_gc : VectorNd;              (* generalized coordinates, eEuler *)
  body_gv : VectorNd               (* generalized velocity, eSpatial *)
}.

Definition set_generalized_coordinates (q : VectorNd) (b : Body) : Body :=
  mkBody (body_ptr b) (body_is_articulated b) q (body_gv b).

Definition set_generalized_velocity (qd : VectorNd) (b : Body) : Body :=
  mkBody (body_ptr b) (body_is_articulated b) (body_gc b) qd.

Inductive GeneralizedCoordinateType : Type := eEuler | eSpatial.

(** What [ImpactEventHandler::process_events] (the impact resolver, not
    among the sources) leaves behind: the bodies and events as it mutated
    them, and, when it throws [ImpactToleranceException], the events that
    the exception names. *)
Inductive ProcessOutcome : Type :=
| Resolved (bodies' : list Body) (events' : list Event)
| ImpactToleranceException
    (bodies' : list Body) (events' : list Event) (named : list Event).

(** [CollisionDetection::is_contact(dt, x0, x1, events)]. *)
Definition CollisionDetection : Type :=
  double -> list (Body * VectorNd) -> list (Body * VectorNd) -> list Event.

(** What [preprocess_event] writes to [std::cerr]: no contact data for the
    contact between two geometries (and their bodies). *)
Inductive Diagnostic : Type :=
| NoContactData (geom1 body1 geom2 body2 : BasePtr).

(** [a] if it is set, else [b]: one rung of a fallback chain. *)
Definition orelse {A : Type} (a b : option A) : option A :=
  match a with Some x => Some x | None => b end.

Section Simulator.

(** The collaborators.  [EventKey] with [event_identity] stands for the
    comparator [EventCompare] of the tolerance map (declared in
    EventDrivenSimulator.h, not among the sources): two events are the
    same key of [_event_tolerances] when their identities are equal. *)
Context {EventKey : Type} `{Countable EventKey}.
Variable event_identity : Event -> EventKey.

(** [Event::calc_event_vel] (Event.cpp, not among the sources): the signed
    relative velocity along the event's constraint direction, measured on
    the current state of the bodies. *)
Variable calc_event_vel : list Body -> Event -> double.

(** [std::sort(_events.begin(), _events.end())] with [Event::operator<]. *)
Variable std_sort : list Event -> list Event.

(** [_impact_event_handler.process_events(_events)]. *)
Variable process_events : list Body -> list Event -> ProcessOutcome.

(** [ArticulatedBody::find_limit_events(q0, q1, dt, out)]. *)
Variable ab_find_limit_events :
  Body -> VectorNd -> VectorNd -> double -> list Event.

(** [DynamicBody::ode_both(x, t, dt, data, dx)] and the Euler form of a
    body's generalized velocity. *)
Variable ode_both : Body -> VectorNd -> double -> double -> VectorNd.
Variable euler_velocity : Body -> VectorNd.

Definition get_generalized_coordinates (b : Body) : VectorNd := body_gc b.

Definition get_generalized_velocity
    (gctype : GeneralizedCoordinateType) (b : Body) : VectorNd :=
  match gctype with
  | eSpatial => body_gv b
  | eEuler => euler_velocity b
  end.

(** *** Event classification *)

(** Modelled from the spec: [Event::determine_event_class] is declared in
    Event.h and defined in Event.cpp, which is not among the sources.
    `v > tol` gives Separating; `|v| <= tol` gives Resting (boundary
    inclusive); `v < -tol` gives Impacting. *)
Definition determine_event_class (bodies : list Body) (e : Event) : EventClass :=
  let v := calc_event_vel bodies e in
  if dgt v (tol e) then eSeparating
  else if dle (fabs v) (tol e) then eResting
  else if dlt v (- tol e) then eImpacting
  else eUndetermined.

Definition EventClass_eqb (a b : EventClass) : bool :=
  match a, b with
  | eUndetermined, eUndetermined | eSeparating, eSeparating
  | eResting, eResting | eImpacting, eImpacting => true
  | _, _ => false
  end.

(** Event.h: [is_impacting], [is_resting], [is_separating]. *)
Definition is_impacting (bodies : list Body) (e : Event) : bool :=
  EventClass_eqb (determine_event_class bodies e) eImpacting.
Definition is_resting (bodies : list Body) (e : Event) : bool :=
  EventClass_eqb (determine_event_class bodies e) eResting.
Definition is_separating (bodies : list Body) (e : Event) : bool :=
  EventClass_eqb (determine_event_class bodies e) eSeparating.

(** *** The simulator's state *)

Record Sim : Type := mkSim {
  current_time : double;
  _bodies : list Body;
  _events : list Event;
  _q0 : list VectorNd;
  _qf : list VectorNd;
  _qdf : list VectorNd;
  _event_tolerances : gmap EventKey double;
  contact_params : gmap sorted_pair ContactParameters;
  collision_detectors : list CollisionDetection;
  cerr : list Diagnostic;            (* what was written to std::cerr *)
  process_events_calls : nat         (* invocations of the impact resolver *)
}.

Definition set_current_time (x : double) (s : Sim) : Sim :=
  mkSim x (_bodies s) (_events s) (_q0 s) (_qf s) (_qdf s)
    (_event_tolerances s) (contact_params s) (collision_detectors s)
    (cerr s) (process_events_calls s).
Definition set_bodies (x : list Body) (s : Sim) : Sim :=
  mkSim (current_time s) x (_events s) (_q0 s) (_qf s) (_qdf s)
    (_event_tolerances s) (contact_params s) (collision_detectors s)
    (cerr s) (process_events_calls s).
Definition set_events (x : list Event) (s : Sim) : Sim :=
  mkSim (current_time s) (_bodies s) x (_q0 s) (_qf s) (_qdf s)
    (_event_tolerances s) (contact_params s) (collision_detectors s)
    (cerr s) (process_events_calls s).
Definition set_q0 (x : list VectorNd) (s : Sim) : Sim :=
  mkSim (current_time s) (_bodies s) (_events s) x (_qf s) (_qdf s)
    (_event_tolerances s) (contact_params s) (collision_detectors s)
    (cerr s) (process_events_calls s).
Definition set_qf (x : list VectorNd) (s : Sim) : Sim :=
  mkSim (current_time s) (_bodies s) (_events s) (_q0 s) x (_qdf s)
    (_event_tolerances s) (contact_params s) (collision_detectors s)
    (cerr s) (process_events_calls s).
Definition set_qdf (x : list VectorNd) (s : Sim) : Sim :=
  mkSim (current_time s) (_bodies s) (_events s) (_q0 s) (_qf s) x
    (_event_tolerances s) (contact_params s) (collision_detectors s)
    (cerr s) (process_events_calls s).
Definition set_event_tolerances (x : gmap EventKey double) (s : Sim) : Sim :=
  mkSim (current_time s) (_bodies s) (_events s) (_q0 s) (_qf s) (_qdf s)
    x (contact_params s) (collision_detectors s)
    (cerr s) (process_events_calls s).
Definition set_cerr (x : list Diagnostic) (s : Sim) : Sim :=
  mkSim (current_time s) (_bodies s) (_events s) (_q0 s) (_qf s) (_qdf s)
    (_event_tolerances s) (contact_params s) (collision_detectors s)
    x (process_events_calls s).
Definition set_process_events_calls (x : nat) (s : Sim) : Sim :=
  mkSim (current_time s) (_bodies s) (_events s) (_q0 s) (_qf s) (_qdf s)
    (_event_tolerances s) (contact_params s) (collision_detectors s)
    (cerr s) x.

(** [for (unsigned i=0; i< n; i++) body(i)] on the simulator's state. *)
Definition for_range (n : nat) (body : nat -> Sim -> Sim) (s : Sim) : Sim :=
  foldl (fun s i => body i s) s (seq 0 n).

(** *** get_contact_parameters (lines 70-136) *)

Definition get_contact_parameters
    (cps : gmap sorted_pair ContactParameters)
    (geom1 geom2 : CollisionGeometry) : option ContactParameters :=
  (* search for the two contact geometries first *)
  orelse (cps !! make_sorted_pair (geom_ptr geom1) (geom_ptr geom2)) (
  let g1 := geom_ptr geom1 in
  let g2 := geom_ptr geom2 in
  let singlebody1 := get_single_body geom1 in
  let singlebody2 := get_single_body geom2 in
  let sb1 := sb_ptr singlebody1 in
  let sb2 := sb_ptr singlebody2 in
  (* contact geometry 1 and rigid body 2 *)
  orelse (cps !! make_sorted_pair g1 sb2) (
  (* contact geometry 2 and rigid body 1 *)
  orelse (cps !! make_sorted_pair g2 sb1) (
  (* both rigid bodies *)
  orelse (cps !! make_sorted_pair sb1 sb2) (
  (* the articulated bodies, if any *)
  let ab1 := if sb_is_rigid_body singlebody1
             then rb_articulated_body singlebody1 else None in
  let ab2 := if sb_is_rigid_body singlebody2
             then rb_articulated_body singlebody2 else None in
  (* collision geometry 2 and rigid body 2 against articulated body 1 *)
  orelse (match ab1 with
          | Some a1 =>
              orelse (cps !! make_sorted_pair g2 a1)
                     (cps !! make_sorted_pair sb2 a1)
          | None => None
          end) (
  (* collision geometry 1 and rigid body 1 against articulated body 2 *)
  orelse (match ab2 with
          | Some a2 =>
              orelse (cps !! make_sorted_pair g1 a2)
                     (cps !! make_sorted_pair sb1 a2)
          | None => None
          end) (
  (* the two articulated bodies *)
  match ab1, ab2 with
  | Some a1, Some a2 => cps !! make_sorted_pair a1 a2
  | _, _ => None   (* still here?  no contact data found *)
  end)))))).

(** *** preprocess_event (lines 329-355)

    Line 340 asserts that an event that is neither a limit event nor a
    none event is a contact event.  For an event of type [eConstraint]
    the assertion fails and the program stops; with the assertion compiled
    out the code reads the contact geometries, which a constraint event
    does not have.  The code has no behaviour to embed there:
    [preprocess_reaches_contact] is the condition under which it has one,
    and where it does not hold the embedding gives the event back. *)

Definition preprocess_reaches_contact (e : Event) : bool :=
  match event_type e with
  | eConstraint => false
  | _ => true
  end.

Definition preprocess_event (e : Event) (s : Sim) : Event * Sim :=
  match event_type e with
  (* no pre-processing for limit events currently... *)
  | eLimit => (e, s)
  (* no pre-processing for (none) events *)
  | eNone => (e, s)
  (* assert(e.event_type == Event::eContact) *)
  | eConstraint => (e, s)
  | eContact =>
      (* get the contact parameters *)
      match get_contact_parameters (contact_params s)
              (contact_geom1 e) (contact_geom2 e) with
      | Some cparams => (set_contact_parameters cparams e, s)
      | None =>
          let sb1 := get_single_body (contact_geom1 e) in
          let sb2 := get_single_body (contact_geom2 e) in
          (e, set_cerr (cerr s ++
                 [NoContactData (geom_ptr (contact_geom1 e)) (sb_ptr sb1)
                                (geom_ptr (contact_geom2 e)) (sb_ptr sb2)]) s)
      end
  end.

(** [for (i < _events.size()) preprocess_event(_events[i])] *)
Definition preprocess_events_at (i : nat) (s : Sim) : Sim :=
  match _events s !! i with
  | Some e =>
      let '(e', s') := preprocess_event e s in
      set_events (<[i := e']> (_events s')) s'
  | None => s
  end.

(** *** handle_events (lines 279-326)

    No callback is registered ([event_callback_fn] and
    [event_post_impulse_callback_fn] are NULL, as the constructor leaves
    them) and contact points are not rendered. *)

(** The body of the [catch] block, per named event. *)
Definition update_tolerance (s : Sim) (ev : Event) : Sim :=
  let event_v := calc_event_vel (_bodies s) ev in
  set_event_tolerances
    (<[event_identity ev := fabs event_v + DBL_EPSILON]> (_event_tolerances s)) s.

Definition preprocess_events (s : Sim) : Sim :=
  for_range (length (_events s)) preprocess_events_at s.

Definition handle_events (s : Sim) : Sim :=
  (* preprocess events *)
  let s := preprocess_events s in
  (* compute impulses here... *)
  let s := set_process_events_calls (S (process_events_calls s)) s in
  match process_events (_bodies s) (_events s) with
  | Resolved bodies' events' => set_events events' (set_bodies bodies' s)
  | ImpactToleranceException bodies' events' named =>
      (* process events, updating tolerances *)
      foldl update_tolerance (set_events events' (set_bodies bodies' s)) named
  end.

(** *** find_TOI (lines 1075-1192)

    The iterator [citer] is an index into [_events]; [_events.end()] is
    [length (_events s)].  Indexing a vector out of range is undefined in
    the source; here a read gives the empty vector and a write is
    dropped. *)

(** Lines 1105-1111: set the coordinates, on leaving without events. *)
Definition integrate_fully (dt : double) (i : nat) (s : Sim) : Sim :=
  let qf_i := vec_add (vec_scale (_qdf s !!! i) dt) (_q0 s !!! i) in
  let s := set_qf (<[i := qf_i]> (_qf s)) s in
  set_bodies (alter (set_generalized_coordinates qf_i) i (_bodies s)) s.

(** Lines 1121-1127: "integrate" starting coordinates to [h]. *)
Definition integrate_to (h : double) (i : nat) (s : Sim) : Sim :=
  let qf_i := vec_add (vec_scale (_qdf s !!! i) h) (_q0 s !!! i) in
  let s := set_qf (<[i := qf_i]> (_qf s)) s in
  set_bodies (alter (set_generalized_coordinates qf_i) i (_bodies s)) s.

(** Lines 1156-1162: step positions to [h]. *)
Definition step_positions (h : double) (i : nat) (s : Sim) : Sim :=
  let qf_i := vec_scale (_qdf s !!! i) h in
  let q0_i := vec_add (_q0 s !!! i) qf_i in
  let s := set_qf (<[i := qf_i]> (_qf s)) s in
  let s := set_q0 (<[i := q0_i]> (_q0 s)) s in
  set_bodies (alter (set_generalized_coordinates q0_i) i (_bodies s)) s.

(** Lines 1180-1186: set the coordinates, after the walk. *)
Definition integrate_after_walk (dt : double) (i : nat) (s : Sim) : Sim :=
  let qf_i := vec_scale (_qdf s !!! i) dt in
  let q0_i := vec_add (_q0 s !!! i) qf_i in
  let s := set_qf (<[i := qf_i]> (_qf s)) s in
  let s := set_q0 (<[i := q0_i]> (_q0 s)) s in
  set_bodies (alter (set_generalized_coordinates qf_i) i (_bodies s)) s.

(** Lines 1136-1146: find all events at the same time as the event we
    are examining.  [rest] is the part of [_events] from [citer] on; the
    result is the iterator where the scan stopped and the flag. *)
Fixpoint scan_simultaneous (bodies : list Body) (dt tmin : double)
    (rest : list Event) (citer : nat) (impacting : bool) : nat * bool :=
  match rest with
  | [] => (citer, impacting)
  | e :: rest' =>
      if dgt (t e * dt) (tmin + DBL_EPSILON) then (citer, impacting)
      else scan_simultaneous bodies dt tmin rest' (S citer)
             (if negb impacting then is_impacting bodies e else impacting)
  end.

(** Lines 1173-1191: the walk is over, no impacts detected. *)
Definition find_TOI_no_impacts (dt : double) (s : Sim) : double * Sim :=
  let s := set_events [] s in
  let s := for_range (length (_bodies s)) (integrate_after_walk dt) s in
  let s := set_current_time (current_time s + dt) s in
  (DBL_MAX, s).

(** The [while (citer != _events.end())] loop, one unit of [fuel] per
    iteration, followed by the code after the loop. *)
Fixpoint find_TOI_loop (fuel : nat) (dt h : double) (citer : nat) (s : Sim)
    : option (double * Sim) :=
  match _events s !! citer with
  | None => Some (find_TOI_no_impacts dt s)
  | Some e =>
      match fuel with
      | O => None
      | S fuel' =>
          let tmin := t e * dt in
          if dgt tmin dt then
            (* check for exit *)
            let s := set_events [] s in
            let s := for_range (length (_bodies s)) (integrate_fully dt) s in
            let s := set_current_time (current_time s + dt) s in
            Some (DBL_MAX, s)
          else
            let h := h + tmin in
            let s := for_range (length (_q0 s)) (integrate_to h) s in
            (* check for impacting event *)
            let impacting := is_impacting (_bodies s) e in
            let '(citer, impacting) :=
              scan_simultaneous (_bodies s) dt tmin
                (drop (S citer) (_events s)) (S citer) impacting in
            if impacting then
              (* remove remainder of events *)
              let s := set_events (take citer (_events s)) s in
              let s := for_range (length (_q0 s)) (step_positions h) s in
              let s := set_current_time (current_time s + h) s in
              Some (h, s)
            else
              (* citer = _events.erase(citer, _events.end()) *)
              let s := set_events (take citer (_events s)) s in
              find_TOI_loop fuel' dt h (length (_events s)) s
      end
  end.

Definition find_TOI (dt : double) (s : Sim) : option (double * Sim) :=
  find_TOI_loop (length (_events s)) dt 0 0 s.

(** *** find_limit_events (lines 1056-1072) *)

Definition find_limit_events (dt : double) (s : Sim) : list Event :=
  foldl (fun events i =>
           match _bodies s !! i with
           | Some ab =>
               if body_is_articulated ab
               then events ++ ab_find_limit_events ab (_q0 s !!! i) (_qf s !!! i) dt
               else events
           | None => events
           end) [] (seq 0 (length (_bodies s))).

(** *** find_and_handle_si_events (lines 537-627), built without the
    debugging check of interpenetration *)

(** Lines 610-617: set the "real" time of an event and its tolerance. *)
Definition stamp (dt : double) (s : Sim) (e : Event) : Event :=
  let e := set_t_true (current_time s + t e * dt) e in
  match _event_tolerances s !! event_identity e with
  | Some j => set_tol j e
  | None => e
  end.

Definition stamp_event (dt : double) (i : nat) (s : Sim) : Sim :=
  match _events s !! i with
  | Some e => set_events (<[i := stamp dt s e]> (_events s)) s
  | None => s
  end.

(** The candidates of a search over [dt]: what each collision detector
    reports, in the order of the detectors, then the joint-limit
    events. *)
Definition candidate_events (dt : double) (s : Sim) : list Event :=
  concat (map (fun cd : CollisionDetection =>
                 cd dt (zip (_bodies s) (_q0 s)) (zip (_bodies s) (_qf s)))
              (collision_detectors s))
  ++ find_limit_events dt s.

(** Lines 548-617: the event-set builder. *)
Definition build_event_set (dt : double) (s : Sim) : Sim :=
  (* clear events *)
  let s := set_events [] s in
  (* setup x0, x1 *)
  let _x0 := zip (_bodies s) (_q0 s) in
  let _x1 := zip (_bodies s) (_qf s) in
  (* call each collision detector *)
  let s := foldl (fun s (cd : CollisionDetection) =>
                    let cd_events := cd dt _x0 _x1 in
                    set_events (_events s ++ cd_events) s)
                 s (collision_detectors s) in
  (* check each articulated body for a joint limit event *)
  let limit_events := find_limit_events dt s in
  let s := set_events (_events s ++ limit_events) s in
  (* sort the set of events *)
  let s := set_events (std_sort (_events s)) s in
  (* set the "real" time for the events *)
  for_range (length (_events s)) (stamp_event dt) s.

Definition find_and_handle_si_events (dt : double) (s : Sim)
    : option (double * Sim) :=
  let s := build_event_set dt s in
  (* find and integrate body positions to the time-of-impact *)
  '(h, s) ← find_TOI dt s;
  (* handle the events *)
  let s := if dlt h dt then handle_events s else s in
  Some (h, s).

(** *** integrate_si_Euler (lines 418-467) *)

Definition get_coords (s : Sim) : list VectorNd :=
  map get_generalized_coordinates (_bodies s).

Definition get_velocities (s : Sim) : list VectorNd :=
  map (get_generalized_velocity eEuler) (_bodies s).

Definition integrate_body (time step_size : double) (b : Body) : Body :=
  let q := get_generalized_coordinates b in
  let qd := get_generalized_velocity eSpatial b in
  let x := q ++ qd in
  let dx := ode_both b x time step_size in
  (* update the velocity and position *)
  let qd := vec_add qd (vec_scale (segment dx (length q) (length dx)) step_size) in
  let b := set_generalized_velocity qd b in
  let qd := get_generalized_velocity eEuler b in
  let qd := vec_scale qd step_size in
  let q := vec_add q qd in
  set_generalized_coordinates q b.

Definition integrate_si_Euler (step_size : double) (s : Sim) : Sim :=
  for_range (length (_bodies s))
    (fun i s => set_bodies
                  (alter (integrate_body (current_time s) step_size) i (_bodies s)) s)
    s.

(** *** step (lines 470-534)

    No callback is registered ([post_mini_step_callback_fn] and
    [post_step_callback_fn] are NULL). *)

(** Lines 521-526: update the coordinates using the new velocities. *)
Definition update_coordinates (dt : double) (i : nat) (s : Sim) : Sim :=
  let qf_i := vec_add (vec_scale (_qdf s !!! i) dt) (_q0 s !!! i) in
  set_qf (<[i := qf_i]> (_qf s)) s.

(** The [while (dt > 0.0)] loop, one unit of [fuel] per iteration. *)
Fixpoint step_loop (fuel : nat) (dt : double) (s : Sim) : option Sim :=
  if dgt dt 0 then
    match fuel with
    | O => None
    | S fuel' =>
        (* look for events *)
        '(t, s) ← find_and_handle_si_events dt s;
        if dgt t dt then Some s    (* no event.. finish up *)
        else
          (* events have been handled already; reduce dt *)
          let dt := dt - t in
          (* get the new velocities *)
          let s := set_qdf (get_velocities s) s in
          let s := for_range (length (_q0 s)) (update_coordinates dt) s in
          step_loop fuel' dt s
    end
  else Some s.

(** The same loop as a relation between the state on entry and the
    state on exit: it holds when the loop is left, by its guard or by
    [break], after finitely many rounds. *)
Inductive step_loop_exits : double -> Sim -> Sim -> Prop :=
| loop_guard_fails dt s :
    dgt dt 0 = false -> step_loop_exits dt s s
| loop_break dt s t s' :
    dgt dt 0 = true ->
    find_and_handle_si_events dt s = Some (t, s') ->
    dgt t dt = true ->
    step_loop_exits dt s s'
| loop_again dt s t s1 s' :
    dgt dt 0 = true ->
    find_and_handle_si_events dt s = Some (t, s1) ->
    dgt t dt = false ->
    step_loop_exits (dt - t)
      (for_range (length (_q0 s1)) (update_coordinates (dt - t))
         (set_qdf (get_velocities s1) s1)) s' ->
    step_loop_exits dt s s'.

(** Lines 491-499: the provisional integration over the whole step. *)
Definition begin_step (step_size : double) (s : Sim) : Sim :=
  (* store the current generalized coordinates *)
  let s := set_q0 (get_coords s) s in
  (* integrate the systems forward by dt *)
  let s := integrate_si_Euler step_size s in
  (* save the new phase coordinates *)
  let s := set_qf (get_coords s) s in
  set_qdf (get_velocities s) s.

Definition step (fuel : nat) (step_size : double) (s : Sim)
    : option (double * Sim) :=
  (* setup the amount remaining to step *)
  let dt := step_size in
  let s := begin_step dt s in
  s ← step_loop fuel dt s;
  Some (step_size, s).

(** *** Notions used to state what the loops do *)

(** The coordinates that [integrate_to h] gives body [i]. *)
Definition moved_to (h : double) (s : Sim) (i : nat) : VectorNd :=
  vec_add (vec_scale (_qdf s !!! i) h) (_q0 s !!! i).

(** The tolerance table after the [catch] block has gone through the
    named events, measuring each on the bodies [bodies]. *)
Definition learned (bodies : list Body)
    (table : gmap EventKey double) (named : list Event) : gmap EventKey double :=
  foldl (fun table ev =>
           <[event_identity ev := fabs (calc_event_vel bodies ev) + DBL_EPSILON]> table)
        table named.

(** The three ways out of [find_TOI]: the first candidate lies beyond
    [dt]; no candidate, or no Impacting event in the first group; an
    Impacting event in the first group. *)
Inductive TOI_exit (dt : double) (s : Sim) : double -> Sim -> Prop :=
| exit_beyond_dt h s' :
    h = DBL_MAX -> _events s' = [] ->
    (exists e, _events s !! 0%nat = Some e /\ dt < t e * dt) ->
    TOI_exit dt s h s'
| exit_no_impact h s' :
    h = DBL_MAX -> _events s' = [] ->
    (forall e, _events s !! 0%nat = Some e -> t e * dt <= dt) ->
    TOI_exit dt s h s'
| exit_impact h s' e :
    _events s !! 0%nat = Some e ->
    h = 0 + t e * dt -> t e * dt <= dt ->
    (exists n, (0 < n)%nat /\ _events s' = take n (_events s)) ->
    (exists e', e' ∈ _events s' /\
                 is_impacting (_bodies s') e' = true) ->
    TOI_exit dt s h s'.

End Simulator.

(** ** The contact-parameter lookup as the documentation words it

    The six levels in the order given by the comment on
    [get_contact_parameters] (and by the specification): two geometries;
    a geometry and a rigid body; two rigid bodies; a geometry and an
    articulated body; a rigid body and an articulated body; two
    articulated bodies.  The first level with an entry wins. *)
Definition get_contact_parameters_by_level
    (cps : gmap sorted_pair ContactParameters)
    (geom1 geom2 : CollisionGeometry) : option ContactParameters :=
  let g1 := geom_ptr geom1 in
  let g2 := geom_ptr geom2 in
  let singlebody1 := get_single_body geom1 in
  let singlebody2 := get_single_body geom2 in
  let sb1 := sb_ptr singlebody1 in
  let sb2 := sb_ptr singlebody2 in
  let ab1 := if sb_is_rigid_body singlebody1
             then rb_articulated_body singlebody1 else None in
  let ab2 := if sb_is_rigid_body singlebody2
             then rb_articulated_body singlebody2 else None in
  let with_ab (x : BasePtr) (ab : option BasePtr) :=
    match ab with Some a => cps !! make_sorted_pair x a | None => None end in
  (* 1. two collision geometries *)
  orelse (cps !! make_sorted_pair g1 g2) (
  (* 2. one collision geometry, one rigid body *)
  orelse (orelse (cps !! make_sorted_pair g1 sb2) (cps !! make_sorted_pair g2 sb1)) (
  (* 3. two rigid bodies *)
  orelse (cps !! make_sorted_pair sb1 sb2) (
  (* 4. one collision geometry, one articulated body *)
  orelse (orelse (with_ab g2 ab1) (with_ab g1 ab2)) (
  (* 5. one rigid body, one articulated body *)
  orelse (orelse (with_ab sb2 ab1) (with_ab sb1 ab2)) (
  (* 6. two articulated bodies *)
  match ab1, ab2 with
  | Some a1, Some a2 => cps !! make_sorted_pair a1 a2
  | _, _ => None
  end))))).

(** ** std::sort as libstdc++ implements it (bits/stl_algo.h)

    [std::sort] is not part of these sources.  The C++ standard promises
    of it a permutation ordered by the comparison, and nothing on the
    order of equivalent elements; what the program executes is the
    introsort of the C++ library it is built with.  This is the one of
    libstdc++ (GCC 12, bits/stl_algo.h, lines 82-100 and 1782-1942), on a
    vector given as a list, an iterator being an index into it.  Reading
    or writing outside the vector is undefined in the source and gives
    [None] here; so does the heap sort ([std::__partial_sort]) to which the
    introsort falls back when its depth limit is used up, which is not
    embedded. *)
Section StdSort.

Context {A : Type}.
Variable comp : A -> A -> bool.

(** [__comp(__i, __j)] on two iterators. *)
Definition comp_iter (v : list A) (i j : nat) : option bool :=
  match v !! i, v !! j with
  | Some x, Some y => Some (comp x y)
  | _, _ => None
  end.

(** [std::iter_swap(__a, __b)] *)
Definition iter_swap (v : list A) (a b : nat) : option (list A) :=
  match v !! a, v !! b with
  | Some x, Some y => Some (<[b := x]> (<[a := y]> v))
  | _, _ => None
  end.

(** Swaps the median value of *__a, *__b and *__c under __comp to
    *__result (lines 82-100). *)
Definition __move_median_to_first (v : list A) (result a b c : nat)
    : option (list A) :=
  match comp_iter v a b, comp_iter v b c, comp_iter v a c with
  | Some ab, Some bc, Some ac =>
      if ab then
        if bc then iter_swap v result b
        else if ac then iter_swap v result c
        else iter_swap v result a
      else if ac then iter_swap v result a
      else if bc then iter_swap v result c
      else iter_swap v result b
  | _, _, _ => None
  end.

(** The loop of [__unguarded_linear_insert] (lines 1782-1797): [val] is
    moved down from [last] while it is less than its predecessor. *)
Fixpoint __unguarded_linear_insert_loop (val : A) (v : list A) (last : nat)
    : option (list A) :=
  match last with
  | O => None                            (* --__next leaves the vector *)
  | S next =>
      match v !! next with
      | Some x =>
          if comp val x
          then __unguarded_linear_insert_loop val (<[last := x]> v) next
          else Some (<[last := val]> v)
      | None => None
      end
  end.

Definition __unguarded_linear_insert (v : list A) (last : nat)
    : option (list A) :=
  match v !! last with
  | Some val => __unguarded_linear_insert_loop val v last
  | None => None
  end.

(** [for (__i = __from; __i != __last; ++__i) body(__i)] *)
Definition for_iter (from last : nat)
    (body : list A -> nat -> option (list A)) (v : list A) : option (list A) :=
  foldl (fun acc i => match acc with Some v => body v i | None => None end)
        (Some v) (seq from (last - from)).

(** The body of the loop of [__insertion_sort] (lines 1808-1819); the
    first branch moves [first, i) one place up and puts [*i] first. *)
Definition __insertion_sort_body (first : nat) (v : list A) (i : nat)
    : option (list A) :=
  match comp_iter v i first, v !! i with
  | Some true, Some val =>
      Some (take first v ++ val :: take (i - first) (drop first v)
              ++ drop (S i) v)
  | Some false, _ => __unguarded_linear_insert v i
  | _, _ => None
  end.

Definition __insertion_sort (v : list A) (first last : nat) : option (list A) :=
  if (first =? last)%nat then Some v
  else for_iter (S first) last (__insertion_sort_body first) v.

Definition __unguarded_insertion_sort (v : list A) (first last : nat)
    : option (list A) :=
  for_iter first last __unguarded_linear_insert v.

Definition _S_threshold : nat := 16.

Definition __final_insertion_sort (v : list A) (first last : nat)
    : option (list A) :=
  if (_S_threshold <? last - first)%nat then
    match __insertion_sort v first (first + _S_threshold) with
    | Some v => __unguarded_insertion_sort v (first + _S_threshold) last
    | None => None
    end
  else __insertion_sort v first last.

(** [while (__comp(__first, __pivot)) ++__first;] *)
Fixpoint scan_up (fuel : nat) (v : list A) (first pivot : nat) : option nat :=
  match fuel with
  | O => None
  | S fuel =>
      match comp_iter v first pivot with
      | Some true => scan_up fuel v (S first) pivot
      | Some false => Some first
      | None => None
      end
  end.

(** [while (__comp(__pivot, __last)) --__last;] *)
Fixpoint scan_down (v : list A) (pivot last : nat) : option nat :=
  match comp_iter v pivot last with
  | Some true =>
      match last with
      | O => None
      | S last' => scan_down v pivot last'
      end
  | Some false => Some last
  | None => None
  end.

(** [__unguarded_partition] (lines 1861-1877); [fuel] bounds the rounds
    of its [while (true)]. *)
Fixpoint __unguarded_partition (fuel : nat) (v : list A)
    (first last pivot : nat) : option (nat * list A) :=
  match fuel with
  | O => None
  | S fuel =>
      match scan_up (S (length v)) v first pivot, last with
      | Some first, S last =>                        (* --__last *)
          match scan_down v pivot last with
          | Some last =>
              if negb (first <? last)%nat then Some (first, v)
              else
                match iter_swap v first last with
                | Some v => __unguarded_partition fuel v (S first) last pivot
                | None => None
                end
          | None => None
          end
      | _, _ => None
      end
  end.

Definition __unguarded_partition_pivot (v : list A) (first last : nat)
    : option (nat * list A) :=
  let mid := (first + (last - first) / 2)%nat in
  match __move_median_to_first v first (first + 1) mid (last - 1) with
  | Some v => __unguarded_partition (S (length v)) v (first + 1) last first
  | None => None
  end.

(** [__introsort_loop] (lines 1908-1926).  Each round of its loop takes
    one from [depth_limit], so the recursion is on it: the first call
    below is the recursive call of the source on [cut, last), the second
    is the next round of the loop, with [__last = __cut]. *)
Fixpoint __introsort_loop (depth_limit : nat) (v : list A) (first last : nat)
    : option (list A) :=
  if (_S_threshold <? last - first)%nat then
    match depth_limit with
    | O => None                 (* std::__partial_sort: not embedded *)
    | S depth_limit =>
        match __unguarded_partition_pivot v first last with
        | Some (cut, v) =>
            match __introsort_loop depth_limit v cut last with
            | Some v => __introsort_loop depth_limit v first cut
            | None => None
            end
        | None => None
        end
    end
  else Some v.

(** [std::__sort] (lines 1932-1942), which [std::sort] calls on
    [begin(), end()]; [std::__lg] is the binary logarithm, rounded down. *)
Definition __sort (v : list A) : option (list A) :=
  let first := 0%nat in
  let last := length v in
  if (first =? last)%nat then Some v
  else
    match __introsort_loop (Nat.log2 (last - first) * 2) v first last with
    | Some v => __final_insertion_sort v first last
    | None => None
    end.

End StdSort.

(** ** Concrete worlds

    Bodies on a line: each body has one coordinate and one velocity, the
    body with address [i] is [_bodies[i]], and the velocity of a contact
    event is the velocity of the second body minus that of the first
    (negative when they approach). *)
Module Examples.

Definition rigid (sb : BasePtr) : SingleBody := mkSingleBody sb true None.

Definition link (sb ab : BasePtr) : SingleBody := mkSingleBody sb true (Some ab).

Definition geometry (g sb : BasePtr) : CollisionGeometry :=
  mkCollisionGeometry g (rigid sb).

(** A contact event at normalized time [time] and at the point [point]
    between geometry [g1] of body [sb1] and geometry [g2] of body [sb2],
    as a detector delivers it. *)
Definition contact_at (point : Point3d) (time : double)
    (g1 sb1 g2 sb2 : BasePtr) (tol0 : double) : Event :=
  mkEvent eContact time 0 0 0 0 false 0 point
    (geometry g1 sb1) (geometry g2 sb2) 0 0 0 0 tol0.

Definition contact (time : double) (g1 sb1 g2 sb2 : BasePtr) (tol0 : double)
    : Event :=
  contact_at (0, 0, 0) time g1 sb1 g2 sb2 tol0.

(** Identity of an event: its pair of contact geometries. *)
Definition geometry_pair (e : Event) : sorted_pair :=
  make_sorted_pair (geom_ptr (contact_geom1 e)) (geom_ptr (contact_geom2 e)).

Definition velocity_of (bodies : list Body) (sb : BasePtr) : double :=
  match bodies !! sb with
  | Some b => match body_gv b with v :: _ => v | [] => 0 end
  | None => 0
  end.

Definition line_velocity (bodies : list Body) (e : Event) : double :=
  velocity_of bodies (sb_ptr (get_single_body (contact_geom2 e)))
  - velocity_of bodies (sb_ptr (get_single_body (contact_geom1 e))).

(** A sort by insertion that puts an element behind the elements that it
    is not less than: its result is ordered by [Event::operator<], and
    events of equal time keep their order. *)
Fixpoint insert_behind (x : Event) (l : list Event) : list Event :=
  match l with
  | [] => [x]
  | y :: l' => if event_lt x y then x :: y :: l' else y :: insert_behind x l'
  end.

Definition insertion_sort (l : list Event) : list Event :=
  foldl (fun sorted x => insert_behind x sorted) [] l.

(** [std::sort(_events.begin(), _events.end())] as libstdc++ runs it.
    Where the run is not embedded ([None]) the events are left as they
    are; what is stated with it is stated of runs that are embedded. *)
Definition std_sort_libstdcxx (l : list Event) : list Event :=
  default l (__sort event_lt l).

(** Impact resolvers: one that resolves and changes nothing, one that
    throws [ImpactToleranceException] naming every event. *)
Definition resolver_ok (bodies : list Body) (events : list Event)
    : ProcessOutcome := Resolved bodies events.

Definition resolver_throws (bodies : list Body) (events : list Event)
    : ProcessOutcome := ImpactToleranceException bodies events events.

Definition no_limit_events
    (ab : Body) (q0 q1 : VectorNd) (dt : double) : list Event := [].

(** No forces: the state derivative is the velocity followed by zero
    accelerations. *)
Definition free_motion (b : Body) (x : VectorNd) (time dt : double) : VectorNd :=
  body_gv b ++ map (fun _ => 0) (body_gv b).

Definition particle (ptr : BasePtr) (x v : double) : Body :=
  mkBody ptr false [x] [v].

Definition world (bodies : list Body) (events : list Event)
    (detectors : list CollisionDetection) : Sim (EventKey := sorted_pair) :=
  mkSim 0 bodies events (map body_gc bodies) (map body_gc bodies)
    (map body_gv bodies) ∅ ∅ detectors [] 0.

(** One particle, no detector, no event. *)
Definition lonely_particle : Sim := world [particle 0 5 2] [] [].

(** Four particles; the pair (0,1) touches at t = 1/4 with no relative
    velocity, the pair (2,3) collides at t = 1/2 with relative
    velocity -1. *)
Definition four_particles : list Body :=
  [particle 0 0 0; particle 1 1 0; particle 2 5 1; particle 3 6 0].

Definition touching : Event := contact (1 # 4) 10 0 11 1 (1 # 100).
Definition colliding : Event := contact (1 # 2) 12 2 13 3 (1 # 100).

Definition resting_then_impacting : Sim :=
  world four_particles [touching; colliding] [].

(** Two particles that collide at t = 1/2, found by a detector. *)
Definition two_particles : list Body := [particle 0 0 1; particle 1 1 0].

Definition head_on : Event := contact (1 # 2) 10 0 11 1 (1 # 100).

Definition detector_head_on : CollisionDetection :=
  fun dt x0 x1 => [head_on].

Definition collision_course : Sim := world two_particles [] [detector_head_on].

Definition collision_found : Sim := world two_particles [head_on] [].

(** The same collision, found by the detector and about to be handled. *)
Definition collision_being_handled : Sim :=
  world two_particles [head_on] [detector_head_on].

(** A detector that reports two contacts of equal time. *)
Definition first_contact : Event := contact (1 # 2) 10 0 11 1 (1 # 100).
Definition second_contact : Event := contact (1 # 2) 20 0 21 1 (1 # 100).

Definition detector_two_at_once : CollisionDetection :=
  fun dt x0 x1 => [first_contact; second_contact].

Definition two_at_once : Sim := world two_particles [] [detector_two_at_once].

(** A detector that reports twenty contacts of equal time between the
    same two geometries, at the points 0, 1, ..., 19 of a line. *)
Definition contact_on_line (i : nat) : Event :=
  contact_at (inject_Z (Z.of_nat i), 0, 0) (1 # 2) 10 0 11 1 (1 # 100).

Definition detector_twenty_at_once : CollisionDetection :=
  fun dt x0 x1 => contact_on_line <$> seq 0 20.

Definition twenty_at_once : Sim :=
  world two_particles [] [detector_twenty_at_once].

(** A bar (body 1: height and angle, vertical and angular velocity) that
    comes down on the ground (body 0) while it turns.  The velocity of a
    contact event is the vertical velocity of the second body at the
    contact point minus that of the first. *)
Definition ground : Body := mkBody 0 false [0] [0].
Definition bar : Body := mkBody 1 false [1; 0] [-3; 2].
Definition bar_and_ground : list Body := [ground; bar].

Definition velocity_at (bodies : list Body) (sb : BasePtr) (x : double)
    : double :=
  match bodies !! sb with
  | Some b =>
      match body_gv b with
      | v :: w :: _ => v + w * x
      | [v] => v
      | [] => 0
      end
  | None => 0
  end.

Definition point_velocity (bodies : list Body) (e : Event) : double :=
  let x := fst (fst (contact_point e)) in
  velocity_at bodies (sb_ptr (get_single_body (contact_geom2 e))) x
  - velocity_at bodies (sb_ptr (get_single_body (contact_geom1 e))) x.

(** Contacts of the bar with the ground at its two ends and in its
    middle, all of the same two geometries. *)
Definition left_end : Event := contact_at (-1, 0, 0) (1 # 2) 10 0 11 1 (1 # 100).
Definition right_end : Event := contact_at (1, 0, 0) (1 # 2) 10 0 11 1 (1 # 100).
Definition middle : Event := contact_at (0, 0, 0) (1 # 2) 10 0 11 1 (1 # 100).

Definition detector_middle : CollisionDetection :=
  fun dt x0 x1 => [middle].

(** The two ends found in contact and about to be handled; the next
    search will find the middle. *)
Definition bar_landing : Sim :=
  world bar_and_ground [left_end; right_end] [detector_middle].

(** Two links of two articulated bodies, with contact parameters given
    for (rigid body 2, articulated body 1) and for (geometry 1,
    articulated body 2). *)
Definition link_geometry1 : CollisionGeometry :=
  mkCollisionGeometry 1 (link 11 21).
Definition link_geometry2 : CollisionGeometry :=
  mkCollisionGeometry 2 (link 12 22).

Definition params_body_articulated : ContactParameters :=
  mkContactParameters (1 # 2) 0 0 4.
Definition params_geometry_articulated : ContactParameters :=
  mkContactParameters (1 # 10) 0 1 8.

Definition two_entries : gmap sorted_pair ContactParameters :=
  {[ make_sorted_pair 12 21 := params_body_articulated;
     make_sorted_pair 1 22 := params_geometry_articulated ]}.

End Examples.


(** ** What a search may change

    [s'] differs from [s] at most in the positions ([_q0], [_qf], the
    bodies' generalized coordinates), the events and the time. *)
Definition keeps_all_but_positions {EventKey : Type} `{Countable EventKey}
    (s s' : Sim (EventKey := EventKey)) : Prop :=
  _event_tolerances s' = _event_tolerances s /\
  contact_params s' = contact_params s /\
  collision_detectors s' = collision_detectors s /\
  cerr s' = cerr s /\
  process_events_calls s' = process_events_calls s /\
  _qdf s' = _qdf s /\
  body_gv <$> _bodies s' = body_gv <$> _bodies s /\
  body_ptr <$> _bodies s' = body_ptr <$> _bodies s /\
  body_is_articulated <$> _bodies s' = body_is_articulated <$> _bodies s /\
  length (_q0 s') = length (_q0 s) /\
  length (_qf s') = length (_qf s).

(** [s'] differs from [s] at most in the events. *)
Definition keeps_all_but_events {EventKey : Type} `{Countable EventKey}
    (s s' : Sim (EventKey := EventKey)) : Prop :=
  current_time s' = current_time s /\
  _bodies s' = _bodies s /\
  _q0 s' = _q0 s /\ _qf s' = _qf s /\ _qdf s' = _qdf s /\
  _event_tolerances s' = _event_tolerances s /\
  contact_params s' = contact_params s /\
  collision_detectors s' = collision_detectors s /\
  cerr s' = cerr s /\
  process_events_calls s' = process_events_calls s.

(** [s'] differs from [s] at most in the bodies and in the cached
    coordinates and velocities. *)
Definition keeps_all_but_motion {EventKey : Type} `{Countable EventKey}
    (s s' : Sim (EventKey := EventKey)) : Prop :=
  current_time s' = current_time s /\
  _events s' = _events s /\
  _event_tolerances s' = _event_tolerances s /\
  contact_params s' = contact_params s /\
  collision_detectors s' = collision_detectors s /\
  cerr s' = cerr s /\
  process_events_calls s' = process_events_calls s.

(** The tolerance table only grows and only learns positive tolerances:
    every identity of [table] is still in [table'], and an entry of
    [table'] is an entry of [table] or at least epsilon. *)
Definition tolerances_grow {EventKey : Type} `{Countable EventKey}
    (table table' : gmap EventKey double) : Prop :=
  (forall k, is_Some (table !! k) -> is_Some (table' !! k)) /\
  (forall k v, table' !! k = Some v ->
               table !! k = Some v \/ DBL_EPSILON <= v).

(** ** The pairs that [get_contact_parameters] consults, in its order *)
Definition consulted_pairs (geom1 geom2 : CollisionGeometry) : list sorted_pair :=
  let g1 := geom_ptr geom1 in
  let g2 := geom_ptr geom2 in
  let singlebody1 := get_single_body geom1 in
  let singlebody2 := get_single_body geom2 in
  let sb1 := sb_ptr singlebody1 in
  let sb2 := sb_ptr singlebody2 in
  let ab1 := if sb_is_rigid_body singlebody1
             then rb_articulated_body singlebody1 else None in
  let ab2 := if sb_is_rigid_body singlebody2
             then rb_articulated_body singlebody2 else None in
  [make_sorted_pair g1 g2; make_sorted_pair g1 sb2;
   make_sorted_pair g2 sb1; make_sorted_pair sb1 sb2]
  ++ match ab1 with
     | Some a1 => [make_sorted_pair g2 a1; make_sorted_pair sb2 a1]
     | None => []
     end
  ++ match ab2 with
     | Some a2 => [make_sorted_pair g1 a2; make_sorted_pair sb1 a2]
     | None => []
     end
  ++ match ab1, ab2 with
     | Some a1, Some a2 => [make_sorted_pair a1 a2]
     | _, _ => []
     end.

(** The contact events for which [preprocess_event] finds no contact
    data, and the warning it writes for one. *)
Definition lacks_contact_data
    (cps : gmap sorted_pair ContactParameters) (e : Event) : bool :=
  match event_type e with
  | eContact =>
      match get_contact_parameters cps (contact_geom1 e) (contact_geom2 e) with
      | Some _ => false
      | None => true
      end
  | _ => false
  end.

Definition warning_of (e : Event) : Diagnostic :=
  NoContactData
    (geom_ptr (contact_geom1 e)) (sb_ptr (get_single_body (contact_geom1 e)))
    (geom_ptr (contact_geom2 e)) (sb_ptr (get_single_body (contact_geom2 e))).

(** ** check_violation (lines 1195-1239) and its guarded call (lines
    543-546) *)

(** What [check_violation] asks of a collision detector: the answer of
    [is_collision] and the [colliding_pairs] that the detector then
    holds. *)
Record CollisionQuery : Type := mkCollisionQuery {
  is_collision : double -> bool;
  colliding_pairs : list (CollisionGeometry * CollisionGeometry)
}.

(** What [check_violation] writes to [std::cerr]: the warning with the
    current time, and one entry per interpenetrating pair. *)
Inductive ViolationMessage : Type :=
| InterpenetrationWarning (time : double)
| InterpenetratingPair (geom1 body1 geom2 body2 : BasePtr).

Record ViolationState : Type := mkViolationState {
  _simulation_violated : bool;
  violation_cerr : list ViolationMessage
}.

Definition report_pair (cg_pair : CollisionGeometry * CollisionGeometry)
    : ViolationMessage :=
  InterpenetratingPair
    (geom_ptr (fst cg_pair)) (sb_ptr (get_single_body (fst cg_pair)))
    (geom_ptr (snd cg_pair)) (sb_ptr (get_single_body (snd cg_pair))).

(** The body of the loop over the collision detectors. *)
Definition check_detector (time : double) (st : ViolationState)
    (cd : CollisionQuery) : ViolationState :=
  if is_collision cd 0 then
    let out := if negb (_simulation_violated st)
               then violation_cerr st ++ [InterpenetrationWarning time]
               else violation_cerr st in
    mkViolationState true (out ++ map report_pair (colliding_pairs cd))
  else st.

Definition check_violation (time : double) (detectors : list CollisionQuery)
    (st : ViolationState) : ViolationState :=
  foldl (check_detector time) st detectors.

(** [if (!_simulation_violated) check_violation();] *)
Definition guarded_check_violation (st : ViolationState)
    (round : double * list CollisionQuery) : ViolationState :=
  if negb (_simulation_violated st)
  then check_violation (fst round) (snd round) st
  else st.

Definition is_warning (m : ViolationMessage) : bool :=
  match m with InterpenetrationWarning _ => true | _ => false end.

(** Between checks, the warning has been written exactly if the flag is
    set. *)
Definition warned_once (st : ViolationState) : Prop :=
  length (List.filter is_warning (violation_cerr st))
    = if _simulation_violated st then 1%nat else 0%nat.

(** ** load_from_xml and save_to_xml, the contact parameters (lines
    1314-1323 and 1344-1350)

    The XML tree and [ContactParameters::load_from_xml] and [save_to_xml]
    are not among the sources.  A child node is of a type [XMLTree];
    reading one gives the contact parameters with the two objects that they
    name ([cd->objects]); writing contact parameters gives a node. *)
Section ContactParametersXML.

Variable XMLTree : Type.
Variable load_node : XMLTree -> BasePtr * BasePtr * ContactParameters.
Variable save_node : ContactParameters -> XMLTree.
(** The order in which [std::map] iterates over its entries: ascending in
    the keys, by the comparison of [sorted_pair<BasePtr>], which is not
    among the sources. *)
Variable key_order :
  list (sorted_pair * ContactParameters) -> list (sorted_pair * ContactParameters).

(** [cd->objects], a sorted pair, and [cd] itself. *)
Definition node_objects (node : XMLTree) : sorted_pair :=
  make_sorted_pair (fst (fst (load_node node))) (snd (fst (load_node node))).

Definition node_parameters (node : XMLTree) : ContactParameters :=
  snd (load_node node).

(** [contact_params[cd->objects] = cd] *)
Definition load_contact_parameters_node
    (cps : gmap sorted_pair ContactParameters) (node : XMLTree)
    : gmap sorted_pair ContactParameters :=
  <[node_objects node := node_parameters node]> cps.

(** Lines 1314-1323: read in any ContactParameters. *)
Definition load_contact_parameters (child_nodes : list XMLTree)
    (cps : gmap sorted_pair ContactParameters)
    : gmap sorted_pair ContactParameters :=
  let cps := match child_nodes with [] => cps | _ => ∅ end in
  foldl load_contact_parameters_node cps child_nodes.


End ContactParametersXML.

(** ** More concrete worlds *)
Module MoreExamples.
Import Examples.

(** Two contacts of the four particles at the same time, and a later one. *)
Definition colliding_early : Event := contact (1 # 4) 12 2 13 3 (1 # 100).
Definition touching_later : Event := contact (1 # 2) 10 0 11 1 (1 # 100).

Definition two_at_a_quarter : Sim :=
  world four_particles [touching; colliding_early; touching_later] [].

(** A detector query that reports geometry 10 and 11 interpenetrating,
    and one that reports nothing. *)
Definition query_colliding : CollisionQuery :=
  mkCollisionQuery (fun _ => true) [(geometry 10 0, geometry 11 1)].
Definition query_clear : CollisionQuery :=
  mkCollisionQuery (fun _ => false) [].

(** Contact parameters for two pairs of geometries, and XML nodes that
    are the parameters with the objects they name. *)
Definition params_rubber : ContactParameters := mkContactParameters 1 0 (1 # 2) 4.
Definition params_ice : ContactParameters := mkContactParameters (1 # 20) 0 0 8.

Definition objects_named (c : ContactParameters) : BasePtr * BasePtr :=
  if (cp_NK c =? 4)%nat then (10, 11)%nat else (12, 13)%nat.

Definition read_node (node : ContactParameters)
    : BasePtr * BasePtr * ContactParameters :=
  (fst (objects_named node), snd (objects_named node), node).



(** The four particles with their two contacts, and contact parameters
    for the geometries of the first contact only. *)
Definition partly_parametrised : Sim (EventKey := sorted_pair) :=
  mkSim 0 four_particles [touching; colliding]
    (map body_gc four_particles) (map body_gc four_particles)
    (map body_gv four_particles) ∅ {[ (10, 11)%nat := params_rubber ]} [] [] 0.

End MoreExamples.

(** ** Facts on the scalar comparisons *)

Lemma dlt_spec (a b : double) : dlt a b = true <-> a < b.
Proof.
  unfold dlt. rewrite Qlt_alt. destruct (a ?= b); split; congruence.
Qed.

Lemma dlt_false (a b : double) : dlt a b = false <-> b <= a.
Proof.
  rewrite <- Bool.not_true_iff_false, dlt_spec. split.
  - apply Qnot_lt_le.
  - apply Qle_not_lt.
Qed.

Lemma dgt_spec (a b : double) : dgt a b = true <-> b < a.
Proof. apply dlt_spec. Qed.

Lemma dle_spec (a b : double) : dle a b = true <-> a <= b.
Proof.
  unfold dle. rewrite Bool.negb_true_iff. apply dlt_false.
Qed.

Lemma fabs_le (x y : double) : fabs x <= y <-> - y <= x /\ x <= y.
Proof. apply Qabs_Qle_condition. Qed.

(** C6.  With a nonnegative tolerance, the class of an event is Separating
    exactly when its velocity [v] exceeds [tol], Resting exactly when
    [|v| <= tol], Impacting exactly when [v < -tol]; a velocity equal to
    [+tol] is Resting. *)
Theorem determine_event_class_thresholds
    (calc_event_vel : list Body -> Event -> double)
    (bodies : list Body) (e : Event) :
  0 <= tol e ->
  let v := calc_event_vel bodies e in
  let c := determine_event_class calc_event_vel bodies e in
  (c = eSeparating <-> tol e < v) /\
  (c = eResting <-> fabs v <= tol e) /\
  (c = eImpacting <-> v < - tol e) /\
  (v == tol e -> c = eResting /\ c <> eSeparating).
Proof.
  intros Htol v c. subst c. unfold determine_event_class. fold v.
  destruct (dgt v (tol e)) eqn:Hgt.
  - apply dgt_spec in Hgt.
    repeat split; intros; try congruence; try lra.
    match goal with H : fabs _ <= _ |- _ => apply fabs_le in H end. lra.
  - apply dlt_false in Hgt.
    destruct (dle (fabs v) (tol e)) eqn:Hle.
    + apply dle_spec in Hle. pose proof (proj1 (fabs_le _ _) Hle) as Habs.
      repeat split; intros; try congruence; try lra.
    + apply Bool.not_true_iff_false in Hle. rewrite dle_spec in Hle.
      assert (Hneg : v < - tol e).
      { destruct (Qlt_le_dec v (- tol e)) as [|Hge]; [assumption|].
        exfalso. apply Hle. apply fabs_le. split; assumption. }
      assert (Hlt : dlt v (- tol e) = true) by (apply dlt_spec; exact Hneg).
      rewrite Hlt.
      repeat split; intros; try congruence; try lra.
Qed.
(** ** Facts on vectors *)

Lemma Qplus_comm_eq (a b : Q) : Qplus a b = Qplus b a.
Proof.
  destruct a as [an ad], b as [bn bd]. unfold Qplus. simpl.
  f_equal; [ apply Z.add_comm | apply Pos.mul_comm ].
Qed.

Lemma vec_add_comm (u v : VectorNd) : vec_add u v = vec_add v u.
Proof.
  unfold vec_add. revert v.
  induction u as [|a u IH]; intros [|b v]; simpl; [reflexivity ..|].
  rewrite Qplus_comm_eq, IH. reflexivity.
Qed.

(** ** Facts on the loops over the simulator's state *)

Section LoopFacts.

Context {EventKey : Type} `{Countable EventKey}.
Local Abbreviation State := (Sim (EventKey := EventKey)).
Implicit Types (s : State) (body : nat -> State -> State).

Lemma for_range_S n body s :
  for_range (S n) body s = body n (for_range n body s).
Proof.
  unfold for_range. rewrite seq_S, foldl_snoc. reflexivity.
Qed.

(** A property that each round keeps is kept by the loop. *)
Lemma for_range_preserves (P : State -> Prop) n body s :
  (forall i s', P s' -> P (body i s')) -> P s -> P (for_range n body s).
Proof.
  intros Hbody Hs. induction n as [|n IH].
  - exact Hs.
  - rewrite for_range_S. apply Hbody, IH.
Qed.

Lemma lookup_total_eq {A} `{Inhabited A} (l k : list A) i :
  l !! i = k !! i -> l !!! i = k !!! i.
Proof.
  intros E. rewrite !list_lookup_total_alt, E. reflexivity.
Qed.

Lemma integrate_to_loop h n s :
  let s' := for_range n (integrate_to h) s in
  _q0 s' = _q0 s /\ _qdf s' = _qdf s /\ _events s' = _events s /\
  forall i, _bodies s' !! i =
            if decide (i < n)%nat
            then set_generalized_coordinates (moved_to h s i) <$> _bodies s !! i
            else _bodies s !! i.
Proof.
  induction n as [|n IH]; simpl.
  - repeat split; try (intros i; destruct (decide (i < 0)%nat); [lia | reflexivity]).
  - rewrite for_range_S.
    destruct IH as (Hq0 & Hqdf & Hev & Hb).
    set (sn := for_range n (integrate_to h) s) in *.
    unfold integrate_to; simpl.
    repeat split; try assumption.
    intros i. rewrite list_lookup_alter, Hq0, Hqdf.
    destruct (decide (n = i)) as [->|Hne].
    + rewrite Hb. destruct (decide (i < i)%nat); [lia|].
      destruct (decide (i < S i)%nat); [reflexivity | lia].
    + rewrite Hb.
      destruct (decide (i < n)%nat), (decide (i < S n)%nat);
        try reflexivity; lia.
Qed.

Lemma step_positions_loop h n s :
  let s' := for_range n (step_positions h) s in
  _qdf s' = _qdf s /\ _events s' = _events s /\
  (forall i, (n <= i)%nat -> _q0 s' !! i = _q0 s !! i) /\
  forall i, _bodies s' !! i =
            if decide (i < n)%nat
            then set_generalized_coordinates
                   (vec_add (_q0 s !!! i) (vec_scale (_qdf s !!! i) h))
                   <$> _bodies s !! i
            else _bodies s !! i.
Proof.
  induction n as [|n IH]; simpl.
  - repeat split; try (intros i; destruct (decide (i < 0)%nat); [lia | reflexivity]).
  - rewrite for_range_S.
    destruct IH as (Hqdf & Hev & Hq0 & Hb).
    set (sn := for_range n (step_positions h) s) in *.
    unfold step_positions; simpl.
    repeat split; try assumption.
    + intros i Hi. rewrite list_lookup_insert_ne by lia. apply Hq0. lia.
    + intros i. rewrite list_lookup_alter, Hqdf.
      rewrite (lookup_total_eq (_q0 sn) (_q0 s) n) by (apply Hq0; lia).
      destruct (decide (n = i)) as [->|Hne].
      * rewrite Hb. destruct (decide (i < i)%nat); [lia|].
        destruct (decide (i < S i)%nat); [reflexivity | lia].
      * rewrite Hb.
        destruct (decide (i < n)%nat), (decide (i < S n)%nat);
          try reflexivity; lia.
Qed.

(** Stepping the positions to [h] after integrating to [h] leaves every
    body where the integration put it. *)
Lemma step_positions_after_integrate_to h s evs :
  let s1 := for_range (length (_q0 s)) (integrate_to h) s in
  let s2 := set_events evs s1 in
  _bodies (for_range (length (_q0 s2)) (step_positions h) s2) = _bodies s1.
Proof.
  intros s1 s2.
  destruct (integrate_to_loop h (length (_q0 s)) s) as (Hq0 & Hqdf & _ & Hb).
  fold s1 in Hq0, Hqdf, Hb.
  destruct (step_positions_loop h (length (_q0 s2)) s2) as (_ & _ & _ & Hb2).
  apply list_eq. intros i. rewrite Hb2.
  change (_q0 s2) with (_q0 s1). change (_qdf s2) with (_qdf s1).
  change (_bodies s2) with (_bodies s1).
  rewrite Hq0, Hqdf.
  destruct (decide (i < length (_q0 s))%nat) as [Hi|Hi]; [|reflexivity].
  rewrite Hb. destruct (decide (i < length (_q0 s))%nat); [|lia].
  destruct (_bodies s !! i) as [b|]; [|reflexivity]. simpl.
  unfold set_generalized_coordinates, moved_to. simpl.
  rewrite vec_add_comm. reflexivity.
Qed.

Lemma integrate_fully_events dt n s :
  _events (for_range n (integrate_fully dt) s) = _events s.
Proof.
  apply (for_range_preserves (fun s' => _events s' = _events s)); [|reflexivity].
  intros i s' E. exact E.
Qed.

Lemma integrate_after_walk_events dt n s :
  _events (for_range n (integrate_after_walk dt) s) = _events s.
Proof.
  apply (for_range_preserves (fun s' => _events s' = _events s)); [|reflexivity].
  intros i s' E. exact E.
Qed.

End LoopFacts.

(** ** Facts on the time-of-impact walk *)

Section WalkFacts.

Context {EventKey : Type} `{Countable EventKey}.
Variable calc_event_vel : list Body -> Event -> double.
Local Abbreviation State := (Sim (EventKey := EventKey)).
Implicit Types (s : State).

Lemma scan_simultaneous_spec bodies dt tmin rest citer impacting :
  forall citer' impacting',
    scan_simultaneous calc_event_vel bodies dt tmin rest citer impacting
      = (citer', impacting') ->
    (citer <= citer' <= citer + length rest)%nat /\
    (impacting' = true ->
     impacting = true \/
     exists k e, (k < citer' - citer)%nat /\ rest !! k = Some e /\
                 is_impacting calc_event_vel bodies e = true).
Proof.
  revert citer impacting.
  induction rest as [|e rest IH]; intros citer impacting citer' impacting'; simpl.
  - intros [= <- <-]. split; [lia | auto].
  - destruct (dgt (t e * dt) (tmin + DBL_EPSILON)).
    + intros [= <- <-]. split; [lia | auto].
    + intros Hscan. apply IH in Hscan as [Hrange Himp].
      split; [lia|]. intros Ht. destruct (Himp Ht) as [Hnow | (k & e' & Hk & He' & Hi)].
      * destruct impacting; simpl in Hnow; [auto|].
        right. exists 0%nat, e. repeat split; [lia | assumption].
      * right. exists (S k), e'. repeat split; [lia | assumption | assumption].
Qed.

(** Once the iterator is at the end the loop is left, whatever the
    fuel. *)
Lemma find_TOI_loop_end fuel dt h citer s :
  _events s !! citer = None ->
  find_TOI_loop calc_event_vel fuel dt h citer s
    = Some (find_TOI_no_impacts dt s).
Proof.
  intros E. destruct fuel; simpl; rewrite E; reflexivity.
Qed.

Lemma find_TOI_no_impacts_result dt s :
  fst (find_TOI_no_impacts dt s) = DBL_MAX /\
  _events (snd (find_TOI_no_impacts dt s)) = [].
Proof.
  unfold find_TOI_no_impacts. simpl. split; [reflexivity|].
  rewrite integrate_after_walk_events. reflexivity.
Qed.

Lemma find_TOI_exits dt s :
  exists h s', find_TOI calc_event_vel dt s = Some (h, s') /\
               TOI_exit calc_event_vel dt s h s'.
Proof.
  unfold find_TOI.
  destruct (_events s) as [|e rest] eqn:E.
  - rewrite find_TOI_loop_end by (rewrite E; reflexivity).
    destruct (find_TOI_no_impacts_result dt s) as [Hh Hev].
    destruct (find_TOI_no_impacts dt s) as [h s'] eqn:R. simpl in *.
    exists h, s'. split; [reflexivity|].
    apply exit_no_impact; try assumption.
    intros e'. rewrite E. discriminate.
  - cbn [length find_TOI_loop]. rewrite E.
    change ((e :: rest) !! 0%nat) with (Some e). cbv beta iota zeta.
    destruct (dgt (t e * dt) dt) eqn:Hgt.
    + eexists _, _. split; [reflexivity|].
      apply exit_beyond_dt; [reflexivity | |].
      * cbn [_events set_current_time]. rewrite integrate_fully_events.
        reflexivity.
      * exists e. rewrite E. split; [reflexivity|].
        apply dgt_spec. exact Hgt.
    + apply dlt_false in Hgt.
      destruct (integrate_to_loop (0 + t e * dt) (length (_q0 s)) s)
        as (Hq0 & Hqdf & Hev & _).
      set (s1 := for_range (length (_q0 s)) (integrate_to (0 + t e * dt)) s) in *.
      destruct (scan_simultaneous calc_event_vel (_bodies s1) dt (t e * dt)
                  (drop 1 (_events s1)) 1
                  (is_impacting calc_event_vel (_bodies s1) e))
        as [citer impacting] eqn:Hscan.
      apply scan_simultaneous_spec in Hscan as [Hrange Himp].
      destruct impacting.
      * eexists _, _. split; [reflexivity|].
        pose proof (step_positions_after_integrate_to (0 + t e * dt) s
                      (take citer (_events s1))) as Hbodies.
        fold s1 in Hbodies. cbv zeta in Hbodies.
        set (s2 := set_events (take citer (_events s1)) s1) in *.
        destruct (step_positions_loop (0 + t e * dt) (length (_q0 s2)) s2)
          as (_ & Hev2 & _).
        apply exit_impact with (e := e).
        -- rewrite E. reflexivity.
        -- reflexivity.
        -- exact Hgt.
        -- exists citer. split; [lia|].
           cbn [_events set_current_time]. rewrite Hev2.
           unfold s2. cbn [_events set_events]. rewrite Hev. reflexivity.
        -- cbn [_events _bodies set_current_time]. rewrite Hev2, Hbodies.
           unfold s2. cbn [_events set_events]. rewrite Hev, E.
           destruct (Himp eq_refl) as [Hfirst | (k & e' & Hk & He' & Hi)].
           ++ exists e. split; [|exact Hfirst].
              destruct citer; [lia|]. simpl. apply list_elem_of_here.
           ++ exists e'. split; [|exact Hi].
              apply list_elem_of_lookup. exists (S k).
              rewrite lookup_take_lt by lia.
              rewrite Hev, E in He'. exact He'.
      * set (s2 := set_events (take citer (_events s1)) s1).
        rewrite find_TOI_loop_end.
        2:{ apply lookup_ge_None. lia. }
        destruct (find_TOI_no_impacts_result dt s2) as [Hh Hev2].
        destruct (find_TOI_no_impacts dt s2) as [h s'] eqn:R. simpl in *.
        exists h, s'. split; [reflexivity|].
        apply exit_no_impact; try assumption.
        intros e'. rewrite E. intros [= <-]. exact Hgt.
Qed.

(** The walk never gets past its first group: what [find_TOI] returns is
    the sentinel or the time of the first candidate. *)
Lemma find_TOI_first_group_only dt s h s' :
  find_TOI calc_event_vel dt s = Some (h, s') ->
  h = DBL_MAX \/
  exists e, _events s !! 0%nat = Some e /\ h = 0 + t e * dt.
Proof.
  intros Htoi.
  destruct (find_TOI_exits dt s) as (h' & s'' & Htoi' & Hexit).
  rewrite Htoi in Htoi'. injection Htoi' as <- <-.
  destruct Hexit as [h s' -> _ _ | h s' -> _ _ | h s' e He -> _ _ _].
  - left. reflexivity.
  - left. reflexivity.
  - right. exists e. split; [exact He | reflexivity].
Qed.

End WalkFacts.

(** ** Facts on the event handler and the event-set builder *)

Section HandlerFacts.

Context {EventKey : Type} `{Countable EventKey}.
Variable event_identity : Event -> EventKey.
Variable calc_event_vel : list Body -> Event -> double.
Variable std_sort : list Event -> list Event.
Variable process_events : list Body -> list Event -> ProcessOutcome.
Variable ab_find_limit_events :
  Body -> VectorNd -> VectorNd -> double -> list Event.
Local Abbreviation State := (Sim (EventKey := EventKey)).
Implicit Types (s : State).

Lemma preprocess_events_at_frame i s :
  let s' := preprocess_events_at i s in
  _bodies s' = _bodies s /\ _event_tolerances s' = _event_tolerances s /\
  process_events_calls s' = process_events_calls s /\
  length (_events s') = length (_events s).
Proof.
  unfold preprocess_events_at, preprocess_event.
  destruct (_events s !! i) as [e|]; [|auto].
  destruct (event_type e); simpl; rewrite ?length_insert; auto;
    destruct (get_contact_parameters _ _ _); simpl;
    rewrite ?length_insert; auto.
Qed.

(** A contact without contact data: a warning on [std::cerr], and the
    event is left as it is. *)
Lemma preprocess_event_without_data e s :
  event_type e = eContact ->
  get_contact_parameters (contact_params s) (contact_geom1 e) (contact_geom2 e)
    = None ->
  fst (preprocess_event e s) = e /\
  cerr (snd (preprocess_event e s))
    = cerr s ++ [NoContactData
                   (geom_ptr (contact_geom1 e))
                   (sb_ptr (get_single_body (contact_geom1 e)))
                   (geom_ptr (contact_geom2 e))
                   (sb_ptr (get_single_body (contact_geom2 e)))].
Proof.
  intros Htype Hnone. unfold preprocess_event. rewrite Htype, Hnone.
  split; reflexivity.
Qed.

Lemma preprocess_events_frame s :
  let s' := preprocess_events s in
  _bodies s' = _bodies s /\ _event_tolerances s' = _event_tolerances s /\
  process_events_calls s' = process_events_calls s /\
  length (_events s') = length (_events s).
Proof.
  unfold preprocess_events.
  apply (for_range_preserves
           (fun s' => _bodies s' = _bodies s /\
                      _event_tolerances s' = _event_tolerances s /\
                      process_events_calls s' = process_events_calls s /\
                      length (_events s') = length (_events s))); [|auto].
  intros i s' (Hb & Ht & Hc & Hl).
  destruct (preprocess_events_at_frame i s') as (Hb' & Ht' & Hc' & Hl').
  repeat split; congruence.
Qed.

Lemma update_tolerance_loop named s :
  let s' := foldl (update_tolerance event_identity calc_event_vel) s named in
  _event_tolerances s' = learned event_identity calc_event_vel (_bodies s) (_event_tolerances s) named /\
  _bodies s' = _bodies s /\ _events s' = _events s /\
  process_events_calls s' = process_events_calls s.
Proof.
  revert s. induction named as [|ev named IH]; intros s; simpl; [auto|].
  destruct (IH (update_tolerance event_identity calc_event_vel s ev))
    as (Ht & Hb & He & Hc).
  repeat split; assumption.
Qed.

(** The last event of a given identity decides the entry of that
    identity. *)
Lemma learned_last bodies table pre ev post :
  (forall x, x ∈ post -> event_identity x <> event_identity ev) ->
  learned event_identity calc_event_vel bodies table (pre ++ ev :: post)
    !! event_identity ev
    = Some (fabs (calc_event_vel bodies ev) + DBL_EPSILON).
Proof.
  intros Hpost. unfold learned. rewrite foldl_app. simpl.
  set (table' := <[event_identity ev := _]> _).
  assert (Hhere : table' !! event_identity ev
                  = Some (fabs (calc_event_vel bodies ev) + DBL_EPSILON))
    by apply lookup_insert_eq.
  clearbody table'. revert table' Hhere.
  induction post as [|x post IH]; intros table' Hhere; simpl; [exact Hhere|].
  apply IH.
  - intros y Hy. apply Hpost. apply list_elem_of_further, Hy.
  - rewrite lookup_insert_ne; [exact Hhere|].
    apply Hpost. apply list_elem_of_here.
Qed.

(** [handle_events] when the resolver throws: one invocation of the
    resolver, the table updated from the named events, and nothing
    more. *)
Lemma handle_events_on_violation s bodies' events' named :
  process_events (_bodies (preprocess_events s)) (_events (preprocess_events s))
    = ImpactToleranceException bodies' events' named ->
  let s' := handle_events event_identity calc_event_vel process_events s in
  _event_tolerances s'
    = learned event_identity calc_event_vel bodies' (_event_tolerances s) named /\
  process_events_calls s' = S (process_events_calls s) /\
  _bodies s' = bodies' /\ _events s' = events'.
Proof.
  intros Hthrow. unfold handle_events. cbv zeta.
  destruct (preprocess_events_frame s) as (Hb & Ht & Hc & _).
  set (sp := preprocess_events s) in *.
  change (_bodies (set_process_events_calls (S (process_events_calls sp)) sp))
    with (_bodies sp).
  change (_events (set_process_events_calls (S (process_events_calls sp)) sp))
    with (_events sp).
  rewrite Hthrow.
  match goal with
  | |- context [foldl _ ?s0 named] =>
      destruct (update_tolerance_loop named s0) as (Ht' & Hb' & He' & Hc')
  end.
  cbv zeta in Ht', Hb', He', Hc'.
  rewrite Ht', Hb', He', Hc'. simpl. rewrite Ht, Hc. auto.
Qed.

(** *** The builder *)

Lemma stamp_ext dt s s' e :
  current_time s' = current_time s ->
  _event_tolerances s' = _event_tolerances s ->
  stamp event_identity dt s' e = stamp event_identity dt s e.
Proof. intros Ht Htol. unfold stamp. rewrite Ht, Htol. reflexivity. Qed.

Lemma stamp_loop dt n s :
  let s' := for_range n (stamp_event event_identity dt) s in
  current_time s' = current_time s /\
  _event_tolerances s' = _event_tolerances s /\
  forall i, _events s' !! i =
            if decide (i < n)%nat
            then stamp event_identity dt s <$> _events s !! i
            else _events s !! i.
Proof.
  induction n as [|n IH]; simpl.
  - repeat split; try (intros i; destruct (decide (i < 0)%nat); [lia | reflexivity]).
  - rewrite for_range_S.
    destruct IH as (Ht & Htol & Hev).
    set (sn := for_range n (stamp_event event_identity dt) s) in *.
    unfold stamp_event.
    pose proof (Hev n) as Hn. destruct (decide (n < n)%nat); [lia|].
    rewrite Hn.
    destruct (_events s !! n) as [e|] eqn:En.
    + cbn [current_time _event_tolerances _events set_events].
      repeat split; try assumption.
      intros i. rewrite list_lookup_insert.
      assert (Hlen : (n < length (_events sn))%nat)
        by (apply lookup_lt_is_Some; rewrite Hn; eauto).
      destruct (decide (n = i /\ n < length (_events sn))%nat) as [[-> _]|Hne].
      * destruct (decide (i < S i)%nat); [|lia].
        rewrite En. simpl. f_equal. apply stamp_ext; assumption.
      * rewrite Hev.
        destruct (decide (i < n)%nat), (decide (i < S n)%nat);
          try reflexivity; try lia.
    + repeat split; try assumption.
      intros i. rewrite Hev.
      destruct (decide (i < n)%nat), (decide (i < S n)%nat);
        try reflexivity; try lia.
      assert (i = n) by lia. subst i. rewrite En. reflexivity.
Qed.

Lemma detectors_loop dt x0 x1 (cds : list CollisionDetection) s :
  let s' := foldl (fun s (cd : CollisionDetection) =>
                     set_events (_events s ++ cd dt x0 x1) s) s cds in
  _events s' = _events s ++ concat (map (fun cd : CollisionDetection => cd dt x0 x1) cds) /\
  _bodies s' = _bodies s /\ _q0 s' = _q0 s /\ _qf s' = _qf s /\
  current_time s' = current_time s /\
  _event_tolerances s' = _event_tolerances s.
Proof.
  revert s. induction cds as [|cd cds IH]; intros s; simpl.
  - rewrite app_nil_r. repeat split.
  - destruct (IH (set_events (_events s ++ cd dt x0 x1) s))
      as (He & Hb & Hq0 & Hqf & Ht & Htol).
    cbv zeta in He. rewrite He. simpl. rewrite <- app_assoc.
    repeat split; assumption.
Qed.

Lemma find_limit_events_ext dt s s' :
  _bodies s' = _bodies s -> _q0 s' = _q0 s -> _qf s' = _qf s ->
  find_limit_events ab_find_limit_events dt s'
    = find_limit_events ab_find_limit_events dt s.
Proof.
  intros Hb Hq0 Hqf. unfold find_limit_events. rewrite Hb, Hq0, Hqf.
  reflexivity.
Qed.

(** What the builder leaves in [_events]: the candidates, sorted, each
    with its real time and its tolerance. *)
Lemma build_event_set_events dt s :
  let s' := build_event_set event_identity std_sort ab_find_limit_events dt s in
  _events s'
    = stamp event_identity dt s
        <$> std_sort (candidate_events ab_find_limit_events dt s) /\
  _event_tolerances s' = _event_tolerances s.
Proof.
  unfold build_event_set. cbv zeta.
  cbn [_events _bodies _q0 _qf collision_detectors set_events].
  destruct (detectors_loop dt (zip (_bodies s) (_q0 s)) (zip (_bodies s) (_qf s))
              (collision_detectors s) (set_events [] s))
    as (He & Hb & Hq0 & Hqf & Ht & Htol).
  cbv zeta in He, Hb, Hq0, Hqf, Ht, Htol.
  set (sd := foldl _ (set_events [] s) _) in *.
  rewrite (find_limit_events_ext dt s sd) by assumption.
  rewrite He. cbn [_events set_events app].
  fold (candidate_events ab_find_limit_events dt s).
  set (sorted := std_sort _).
  set (sc := set_events (candidate_events ab_find_limit_events dt s) sd).
  destruct (stamp_loop dt (length sorted) (set_events sorted sc))
    as (Ht' & Htol' & Hev).
  cbv zeta in Ht', Htol', Hev.
  cbn [_events set_events current_time _event_tolerances] in Ht', Htol', Hev.
  split.
  - apply list_eq. intros i. rewrite Hev, list_lookup_fmap.
    destruct (decide (i < length sorted)%nat) as [Hi|Hi].
    + destruct (sorted !! i); [|reflexivity]. simpl. f_equal.
      apply stamp_ext; simpl; assumption.
    + apply not_lt in Hi. apply lookup_ge_None in Hi. rewrite Hi. reflexivity.
  - rewrite Htol'. exact Htol.
Qed.

End HandlerFacts.

(** ** Facts on the outer loop *)

Section StepFacts.

Context {EventKey : Type} `{Countable EventKey}.
Variable event_identity : Event -> EventKey.
Variable calc_event_vel : list Body -> Event -> double.
Variable std_sort : list Event -> list Event.
Variable process_events : list Body -> list Event -> ProcessOutcome.
Variable ab_find_limit_events :
  Body -> VectorNd -> VectorNd -> double -> list Event.
Variable ode_both : Body -> VectorNd -> double -> double -> VectorNd.
Variable euler_velocity : Body -> VectorNd.
Local Abbreviation State := (Sim (EventKey := EventKey)).
Implicit Types (s : State).

Local Abbreviation search :=
  (find_and_handle_si_events event_identity calc_event_vel std_sort
     process_events ab_find_limit_events).
Local Abbreviation loop :=
  (step_loop event_identity calc_event_vel std_sort process_events
     ab_find_limit_events euler_velocity).
Local Abbreviation exits :=
  (step_loop_exits event_identity calc_event_vel std_sort process_events
     ab_find_limit_events euler_velocity).

(** A run of the loop that ends within the fuel is an exit of the
    loop... *)
Lemma step_loop_fuel_exits fuel dt s s' :
  loop fuel dt s = Some s' -> exits dt s s'.
Proof.
  revert dt s. induction fuel as [|fuel IH]; intros dt s; simpl.
  - destruct (dgt dt 0) eqn:Hdt; [discriminate|].
    intros [= <-]. apply loop_guard_fails. exact Hdt.
  - destruct (dgt dt 0) eqn:Hdt.
    + destruct (search dt s) as [[h s1]|] eqn:Hsearch; simpl; [|discriminate].
      destruct (dgt h dt) eqn:Hh.
      * intros [= <-]. eapply loop_break; eassumption.
      * intros Hloop. eapply loop_again; try eassumption.
        apply IH. exact Hloop.
    + intros [= <-]. apply loop_guard_fails. exact Hdt.
Qed.

(** ... and every exit of the loop is reached with some fuel. *)
Lemma step_loop_exits_fuel dt s s' :
  exits dt s s' -> exists fuel, loop fuel dt s = Some s'.
Proof.
  induction 1 as [dt s Hdt | dt s h s' Hdt Hsearch Hh
                 | dt s h s1 s' Hdt Hsearch Hh _ [fuel IH]].
  - exists 0%nat. simpl. rewrite Hdt. reflexivity.
  - exists 1%nat. simpl. rewrite Hdt, Hsearch. simpl. rewrite Hh. reflexivity.
  - exists (S fuel). simpl. rewrite Hdt, Hsearch. simpl. rewrite Hh. exact IH.
Qed.


End StepFacts.

(** ** Facts on the sort by insertion *)

#[local] Instance time_le_transitive : Transitive time_le.
Proof. intros a b c. unfold time_le. apply Qle_trans. Qed.

Lemma stamp_time {EventKey : Type} `{Countable EventKey}
    (event_identity : Event -> EventKey) dt (s : Sim) e :
  t (stamp event_identity dt s e) = t e.
Proof.
  unfold stamp. destruct (_event_tolerances s !! _); reflexivity.
Qed.

Lemma StronglySorted_lookup_le (l : list Event) i j a b :
  StronglySorted time_le l -> (i <= j)%nat ->
  l !! i = Some a -> l !! j = Some b -> t a <= t b.
Proof.
  intros Hsorted. revert i j.
  induction Hsorted as [|x l _ IH Hall]; intros i j Hij Ha Hb; [discriminate|].
  destruct i as [|i], j as [|j]; simpl in *; try lia.
  - injection Ha as <-. injection Hb as <-. apply Qle_refl.
  - injection Ha as <-. exact (Forall_lookup_1 _ _ _ _ Hall Hb).
  - apply (IH i j); [lia | assumption | assumption].
Qed.

Module ExampleFacts.
Import Examples.

Lemma insert_behind_perm x l : insert_behind x l ≡ₚ x :: l.
Proof.
  induction l as [|y l IH]; simpl; [reflexivity|].
  destruct (event_lt x y); [reflexivity|].
  rewrite IH. apply Permutation_swap.
Qed.

Lemma insert_behind_sorted x l :
  Sorted time_le l -> Sorted time_le (insert_behind x l).
Proof.
  induction l as [|y l IH]; simpl; intros Hl.
  - repeat constructor.
  - apply Sorted_inv in Hl as [Hl Hhd].
    unfold event_lt. destruct (dlt (t x) (t y)) eqn:Hxy.
    + apply dlt_spec in Hxy.
      constructor; [constructor; assumption|].
      constructor. unfold time_le. lra.
    + apply dlt_false in Hxy. constructor; [apply IH, Hl|].
      destruct l as [|z l]; simpl.
      * constructor. exact Hxy.
      * destruct (event_lt x z).
        -- constructor. exact Hxy.
        -- constructor. inversion Hhd; assumption.
Qed.

Lemma equal_times_sorted (c : double) (l : list Event) :
  Forall (fun e => t e = c) l -> StronglySorted time_le l.
Proof.
  induction 1 as [|x l Hx Hl IH]; constructor; [exact IH|].
  apply (Forall_impl _ _ _ Hl). intros y Hy.
  unfold time_le. rewrite Hx, Hy. apply Qle_refl.
Qed.

Lemma insertion_sort_perm l : insertion_sort l ≡ₚ l.
Proof.
  unfold insertion_sort.
  enough (Hgen : forall sorted,
             foldl (fun sorted x => insert_behind x sorted) sorted l ≡ₚ sorted ++ l).
  { apply Hgen. }
  induction l as [|x l IH]; intros sorted; simpl.
  - rewrite app_nil_r. reflexivity.
  - rewrite IH, insert_behind_perm. apply Permutation_middle.
Qed.

Lemma insertion_sort_sorted l : Sorted time_le (insertion_sort l).
Proof.
  unfold insertion_sort.
  enough (Hgen : forall sorted,
             Sorted time_le sorted ->
             Sorted time_le (foldl (fun sorted x => insert_behind x sorted) sorted l)).
  { apply Hgen. constructor. }
  induction l as [|x l IH]; intros sorted Hs; simpl; [exact Hs|].
  apply IH, insert_behind_sorted, Hs.
Qed.

End ExampleFacts.

(** * The claims *)

Section Claims.

Context {EventKey : Type} `{Countable EventKey}.
Variable event_identity : Event -> EventKey.
Variable calc_event_vel : list Body -> Event -> double.
Variable std_sort : list Event -> list Event.
Variable process_events : list Body -> list Event -> ProcessOutcome.
Variable ab_find_limit_events :
  Body -> VectorNd -> VectorNd -> double -> list Event.
Variable ode_both : Body -> VectorNd -> double -> double -> VectorNd.
Variable euler_velocity : Body -> VectorNd.
Local Abbreviation State := (Sim (EventKey := EventKey)).
Implicit Types (s : State).

(** C1, as amended.  [find_TOI] always returns.  Either it returns the
    no-event sentinel [std::numeric_limits<double>::max()] and has
    cleared the event set (no Impacting event in it), or it returns a
    value [h <= dt] and the event set it commits contains an Impacting
    event, judged on the bodies as it leaves them. *)
Theorem find_TOI_sentinel_or_impact dt s :
  exists h s',
    find_TOI calc_event_vel dt s = Some (h, s') /\
    ((h = DBL_MAX /\ _events s' = []) \/
     (h <= dt /\
      exists e, e ∈ _events s' /\
                is_impacting calc_event_vel (_bodies s') e = true)).
Proof.
  destruct (find_TOI_exits calc_event_vel dt s) as (h & s' & Htoi & Hexit).
  exists h, s'. split; [exact Htoi|].
  destruct Hexit as [h s' -> Hev _ | h s' -> Hev _ | h s' e _ -> Hle _ Himp].
  - left. auto.
  - left. auto.
  - right. split; [lra | exact Himp].
Qed.

(** C2, as amended.  When the impact resolver throws a tolerance
    violation naming some events, [handle_events] sets the tolerance of
    each named event's identity to [|measured velocity| + epsilon] (a
    later named event of the same identity overwriting an earlier one),
    keeps the bodies and events as the resolver left them, and has
    invoked the resolver exactly once: resolution is not retried. *)
Theorem handle_events_learns_without_retry s bodies' events' named :
  process_events (_bodies (preprocess_events s)) (_events (preprocess_events s))
    = ImpactToleranceException bodies' events' named ->
  let s' := handle_events event_identity calc_event_vel process_events s in
  _event_tolerances s'
    = foldl (fun table ev =>
               <[event_identity ev
                 := fabs (calc_event_vel bodies' ev) + DBL_EPSILON]> table)
            (_event_tolerances s) named /\
  (forall pre ev post,
      named = pre ++ ev :: post ->
      (forall x, x ∈ post -> event_identity x <> event_identity ev) ->
      _event_tolerances s' !! event_identity ev
        = Some (fabs (calc_event_vel bodies' ev) + DBL_EPSILON)) /\
  process_events_calls s' = S (process_events_calls s) /\
  _bodies s' = bodies' /\ _events s' = events'.
Proof.
  intros Hthrow s'.
  destruct (handle_events_on_violation event_identity calc_event_vel
              process_events s bodies' events' named Hthrow)
    as (Htable & Hcalls & Hbodies & Hevents).
  fold s' in Htable, Hcalls, Hbodies, Hevents.
  repeat split; try assumption.
  intros pre ev post -> Hpost. rewrite Htable.
  apply (learned_last event_identity calc_event_vel). exact Hpost.
Qed.

(** C4, as amended.  With [std::sort] taken for what the C++ standard
    promises (a permutation, ordered by [operator<]), every event set that
    the builder leaves is ascending in [t], is a permutation of the
    stamped candidates, and keeps events of equal [t] contiguous.  The
    relative order of events of equal [t] is not promised. *)
Theorem built_event_set_sorted dt s :
  (forall l, std_sort l ≡ₚ l) ->
  (forall l, Sorted time_le (std_sort l)) ->
  let events :=
    _events (build_event_set event_identity std_sort ab_find_limit_events dt s) in
  StronglySorted time_le events /\
  events ≡ₚ stamp event_identity dt s
              <$> candidate_events ab_find_limit_events dt s /\
  forall i j k a b c,
    (i <= j <= k)%nat ->
    events !! i = Some a -> events !! j = Some b -> events !! k = Some c ->
    t a == t c -> t b == t a.
Proof.
  intros Hperm Hsorted events.
  destruct (build_event_set_events event_identity std_sort
              ab_find_limit_events dt s) as [Hev _].
  cbv zeta in Hev. fold events in Hev.
  assert (Hstrong : StronglySorted time_le events).
  { rewrite Hev. apply StronglySorted_fmap with (R1 := time_le).
    - intros x y. unfold time_le. rewrite !stamp_time. auto.
    - apply Sorted_StronglySorted; [apply _ | apply Hsorted]. }
  repeat split.
  - exact Hstrong.
  - rewrite Hev. apply fmap_Permutation, Hperm.
  - intros i j k a b c [Hij Hjk] Ha Hb Hc Hac.
    pose proof (StronglySorted_lookup_le events i j a b Hstrong Hij Ha Hb).
    pose proof (StronglySorted_lookup_le events j k b c Hstrong Hjk Hb Hc).
    lra.
Qed.

(** C9.  Whenever the loop of [step] is left, in however many rounds
    and whatever the resolver did, [step] returns, and any value it
    returns is its argument [step_size]. *)
Theorem step_returns_step_size step_size s s' :
  step_loop_exits event_identity calc_event_vel std_sort process_events
    ab_find_limit_events euler_velocity step_size
    (begin_step ode_both euler_velocity step_size s) s' ->
  (exists fuel,
      step event_identity calc_event_vel std_sort process_events
        ab_find_limit_events ode_both euler_velocity fuel step_size s
      = Some (step_size, s')) /\
  forall fuel r s'',
    step event_identity calc_event_vel std_sort process_events
      ab_find_limit_events ode_both euler_velocity fuel step_size s
    = Some (r, s'') ->
    r = step_size.
Proof.
  intros Hexit. split.
  - apply step_loop_exits_fuel in Hexit as [fuel Hloop].
    exists fuel. unfold step. cbv zeta. rewrite Hloop. reflexivity.
  - intros fuel r s''. unfold step. cbv zeta.
    destruct (step_loop _ _ _ _ _ _ _ _ _) as [s1|]; simpl; [|discriminate].
    intros [= <- _]. reflexivity.
Qed.


End Claims.

(** * The claims on concrete worlds *)

Module ConcreteClaims.
Import Examples ExampleFacts.

(** C1, counterexample.  With no event at all and [dt = 1], [find_TOI]
    returns the sentinel [std::numeric_limits<double>::max()]: a value
    greater than [dt], not equal to it. *)
Lemma find_TOI_returns_more_than_dt :
  exists h s',
    find_TOI line_velocity 1 lonely_particle = Some (h, s') /\
    0 <= 1 /\ 1 < h /\ ~ h == 1.
Proof.
  exists DBL_MAX. eexists. split; [vm_compute; reflexivity|].
  split; [discriminate|]. split; [reflexivity|].
  intros Heq. vm_compute in Heq. discriminate.
Qed.

(** C2, counterexample.  The resolver throws a tolerance violation for
    the collision of two particles; [handle_events] has then invoked
    the resolver once, not twice: the event set is not resolved again. *)
Lemma handle_events_does_not_retry :
  let s := collision_found in
  let s' := handle_events geometry_pair line_velocity resolver_throws s in
  resolver_throws (_bodies (preprocess_events s)) (_events (preprocess_events s))
    = ImpactToleranceException two_particles [head_on] [head_on] /\
  _event_tolerances s' !! geometry_pair head_on = Some (1 + DBL_EPSILON) /\
  process_events_calls s = 0%nat /\
  process_events_calls s' = 1%nat /\
  ~ (2 <= process_events_calls s' - process_events_calls s)%nat.
Proof.
  cbv zeta. repeat split; try (vm_compute; reflexivity).
  vm_compute. lia.
Qed.

(** C3, the code at the failing input.  Two candidates, sorted: a
    Resting contact at t = 1/4 and an Impacting contact at t = 1/2,
    [dt = 1].  After the first group [find_TOI] erases the candidates that
    it has not yet examined, leaves the walk, and returns the sentinel
    with no event: the Impacting contact is never examined. *)
Theorem find_TOI_stops_after_first_group :
  _events resting_then_impacting = [touching; colliding] /\
  is_resting line_velocity four_particles touching = true /\
  is_impacting line_velocity four_particles colliding = true /\
  exists s',
    find_TOI line_velocity 1 resting_then_impacting = Some (DBL_MAX, s') /\
    _events s' = [] /\ current_time s' = 1.
Proof.
  repeat split; try (vm_compute; reflexivity).
  eexists. split; [vm_compute; reflexivity|].
  split; reflexivity.
Qed.

(** C4, counterexample.  A detector reports twenty contacts of the same
    time, at the points 0, 1, ..., 19 in this order.  [std::sort], as
    libstdc++ runs it on more than sixteen elements, swaps the first with
    the middle one as the pivot and then partitions: the builder leaves
    the contact at the point 10 first, the nine that followed it in
    reverse order, then the contact at the point 0, and the contacts at 1
    to 9 in reverse order. *)
Theorem std_sort_reorders_equal_times :
  let candidates := candidate_events no_limit_events 1 twenty_at_once in
  let order := [10; 19; 18; 17; 16; 15; 14; 13; 12; 11;
                0; 9; 8; 7; 6; 5; 4; 3; 2; 1]%nat in
  let built :=
    _events (build_event_set geometry_pair std_sort_libstdcxx
               no_limit_events 1 twenty_at_once) in
  candidates = contact_on_line <$> seq 0 20 /\
  (forall e, e ∈ candidates -> t e = 1 # 2) /\
  __sort event_lt candidates = Some (contact_on_line <$> order) /\
  contact_on_line <$> order ≡ₚ candidates /\
  StronglySorted time_le (contact_on_line <$> order) /\
  contact_point <$> built = contact_point <$> (contact_on_line <$> order) /\
  built <> stamp geometry_pair 1 twenty_at_once <$> candidates.
Proof.
  cbv zeta.
  assert (Hcand : candidate_events no_limit_events 1 twenty_at_once
                  = contact_on_line <$> seq 0 20) by reflexivity.
  rewrite Hcand.
  split; [reflexivity|]. split; [|split; [|split; [|split; [|split]]]].
  - intros e He. apply list_elem_of_fmap in He as (i & -> & _). reflexivity.
  - vm_compute. reflexivity.
  - apply fmap_Permutation.
    rewrite <- (merge_sort_Permutation le) at 1. vm_compute. reflexivity.
  - apply (equal_times_sorted (1 # 2)).
    apply Forall_fmap, Forall_forall. intros i _. reflexivity.
  - vm_compute. reflexivity.
  - vm_compute. discriminate.
Qed.

(** C5, the code at the failing input.  One particle at 5 with velocity
    2, no detector, a step of 1: the builder produces no candidate, the
    provisional end state is 7, and the step returns with the time
    advanced by 1 and the particle at 2, the displacement alone. *)
Theorem step_without_events_loses_start_coordinates :
  let provisional := begin_step free_motion body_gv 1 lonely_particle in
  candidate_events no_limit_events 1 provisional = [] /\
  _qf provisional = [[7]] /\
  exists s',
    step geometry_pair line_velocity insertion_sort resolver_ok
      no_limit_events free_motion body_gv 1 1 lonely_particle
    = Some (1, s') /\
    map body_gc (_bodies s') = [[2]] /\
    current_time s' = 1.
Proof.
  cbv zeta. repeat split; try (vm_compute; reflexivity).
  eexists. split; [vm_compute; reflexivity|].
  split; reflexivity.
Qed.

(** C8, the code at the failing input.  Two links of two articulated
    bodies; parameters are given for (rigid body 2, articulated body 1)
    and for (geometry 1, articulated body 2).  The lookup returns the
    former, a level-five entry, although a level-four entry exists,
    which the order of the documentation makes the winner. *)
Theorem get_contact_parameters_prefers_body_over_geometry :
  get_contact_parameters two_entries link_geometry1 link_geometry2
    = Some params_body_articulated /\
  get_contact_parameters_by_level two_entries link_geometry1 link_geometry2
    = Some params_geometry_articulated /\
  params_body_articulated <> params_geometry_articulated.
Proof.
  repeat split; try (vm_compute; reflexivity).
  discriminate.
Qed.

End ConcreteClaims.

(** * The theorems at concrete inputs *)

Module Witnesses.
Import Examples ExampleFacts.

(** C2 on the collision of two particles with a resolver that throws. *)
Lemma handle_events_learns_without_retry_witness :
  let s := collision_found in
  let s' := handle_events geometry_pair line_velocity resolver_throws s in
  resolver_throws (_bodies (preprocess_events s)) (_events (preprocess_events s))
    = ImpactToleranceException two_particles [head_on] [head_on] /\
  process_events_calls s' = S (process_events_calls s) /\
  _bodies s' = two_particles /\ _events s' = [head_on].
Proof.
  cbv zeta.
  assert (Hthrow :
            resolver_throws (_bodies (preprocess_events collision_found))
              (_events (preprocess_events collision_found))
            = ImpactToleranceException two_particles [head_on] [head_on])
    by (vm_compute; reflexivity).
  split; [exact Hthrow|].
  exact (proj2 (proj2 (handle_events_learns_without_retry geometry_pair
                         line_velocity resolver_throws collision_found
                         two_particles [head_on] [head_on] Hthrow))).
Defined.

(** C4 on the detector that reports two contacts at once. *)
Lemma built_event_set_sorted_witness :
  StronglySorted time_le
    (_events (build_event_set geometry_pair insertion_sort no_limit_events
                1 two_at_once)).
Proof.
  exact (proj1 (built_event_set_sorted geometry_pair insertion_sort
                  no_limit_events 1 two_at_once
                  insertion_sort_perm insertion_sort_sorted)).
Defined.

(** C6 on the colliding pair of the four particles. *)
Lemma determine_event_class_thresholds_witness :
  0 <= tol colliding /\
  (determine_event_class line_velocity four_particles colliding = eImpacting
   <-> line_velocity four_particles colliding < - tol colliding).
Proof.
  assert (Htol : 0 <= tol colliding) by (vm_compute; discriminate).
  split; [exact Htol|].
  exact (proj1 (proj2 (proj2 (determine_event_class_thresholds line_velocity
                                four_particles colliding Htol)))).
Defined.

(** C9 on two particles on a collision course, the resolver throwing a
    tolerance violation in the first round: the step returns 1. *)
Lemma step_returns_step_size_witness :
  exists s',
    (exists fuel,
        step geometry_pair line_velocity insertion_sort resolver_throws
          no_limit_events free_motion body_gv fuel 1 collision_course
        = Some (1, s')) /\
    process_events_calls s' = 1%nat /\
    forall fuel r s'',
      step geometry_pair line_velocity insertion_sort resolver_throws
        no_limit_events free_motion body_gv fuel 1 collision_course
      = Some (r, s'') ->
      r = 1.
Proof.
  eexists ?[final].
  assert (Hexits :
            step_loop_exits geometry_pair line_velocity insertion_sort
              resolver_throws no_limit_events body_gv 1
              (begin_step free_motion body_gv 1 collision_course) ?final).
  { apply (step_loop_fuel_exits geometry_pair line_velocity insertion_sort
             resolver_throws no_limit_events body_gv 2).
    vm_compute. reflexivity. }
  destruct (step_returns_step_size geometry_pair line_velocity insertion_sort
              resolver_throws no_limit_events free_motion body_gv
              1 collision_course _ Hexits) as [Hreturns Hvalue].
  split; [exact Hreturns|].
  split; [reflexivity | exact Hvalue].
Defined.


End Witnesses.

(** * Further properties of the code *)

(** ** Event::operator< *)

(** X1.  [Event::operator<] is a strict weak ordering, as [std::sort]
    and [std::map] require of a comparison: it is irreflexive and
    transitive, events that it does not order form classes (those of equal
    time), and it never orders two events both ways. *)
Theorem event_lt_strict_weak_order :
  (forall a, event_lt a a = false) /\
  (forall a b, event_lt a b = true -> event_lt b a = false) /\
  (forall a b c, event_lt a b = true -> event_lt b c = true ->
                 event_lt a c = true) /\
  (forall a b, event_lt a b = false /\ event_lt b a = false <-> t a == t b) /\
  (forall a b c,
      event_lt a b = false -> event_lt b a = false ->
      event_lt b c = false -> event_lt c b = false ->
      event_lt a c = false /\ event_lt c a = false).
Proof.
  unfold event_lt. split; [|split; [|split; [|split]]].
  - intros a. apply dlt_false, Qle_refl.
  - intros a b Hab. apply dlt_spec in Hab. apply dlt_false. lra.
  - intros a b c Hab Hbc. apply dlt_spec in Hab, Hbc. apply dlt_spec. lra.
  - intros a b. rewrite !dlt_false. split; [intros [? ?] | intros ?; split]; lra.
  - intros a b c. rewrite !dlt_false. intros ? ? ? ?. split; lra.
Qed.

(** ** get_contact_parameters *)

Lemma make_sorted_pair_comm (a b : BasePtr) :
  make_sorted_pair a b = make_sorted_pair b a.
Proof.
  unfold make_sorted_pair.
  destruct (a <=? b)%nat eqn:Hab, (b <=? a)%nat eqn:Hba; try reflexivity.
  - apply Nat.leb_le in Hab, Hba. f_equal; lia.
  - apply Nat.leb_gt in Hab, Hba. lia.
Qed.

Lemma make_sorted_pair_sorted (a b : BasePtr) :
  (fst (make_sorted_pair a b) <= snd (make_sorted_pair a b))%nat.
Proof.
  unfold make_sorted_pair. destruct (a <=? b)%nat eqn:Hab; simpl.
  - apply Nat.leb_le. exact Hab.
  - apply Nat.leb_gt in Hab. lia.
Qed.

Lemma make_sorted_pair_of_sorted (a b : BasePtr) :
  (a <= b)%nat -> make_sorted_pair a b = (a, b).
Proof.
  intros Hab. unfold make_sorted_pair.
  apply Nat.leb_le in Hab. rewrite Hab. reflexivity.
Qed.

Lemma orelse_None {A : Type} (a b : option A) :
  orelse a b = None <-> a = None /\ b = None.
Proof.
  destruct a; simpl; split; intros Hab; try tauto; try discriminate;
    try (destruct Hab; discriminate).
Qed.

Lemma orelse_Some {A : Type} (a b : option A) (x : A) :
  orelse a b = Some x -> a = Some x \/ b = Some x.
Proof. destruct a; simpl; auto. Qed.

Lemma first_found_None {A B : Type} (f : A -> option B) (l : list A) :
  head (omap f l) = None <-> forall x, x ∈ l -> f x = None.
Proof.
  induction l as [|a l IH]; simpl.
  - split; [intros _ x Hx; apply elem_of_nil in Hx; destruct Hx | reflexivity].
  - destruct (f a) as [b|] eqn:Hfa; simpl.
    + split; [discriminate|]. intros Hall.
      rewrite (Hall a) in Hfa by apply list_elem_of_here. discriminate.
    + rewrite IH. split.
      * intros Hall x Hx. apply elem_of_cons in Hx as [->|Hx]; auto.
      * intros Hall x Hx. apply Hall. apply list_elem_of_further, Hx.
Qed.

Lemma first_found_Some {A B : Type} (f : A -> option B) (l : list A) (b : B) :
  head (omap f l) = Some b -> exists x, x ∈ l /\ f x = Some b.
Proof.
  induction l as [|a l IH]; simpl; [discriminate|].
  destruct (f a) as [b'|] eqn:Hfa; simpl.
  - intros [= ->]. exists a. split; [apply list_elem_of_here | exact Hfa].
  - intros Hb. destruct (IH Hb) as (x & Hx & Hfx).
    exists x. split; [apply list_elem_of_further, Hx | exact Hfx].
Qed.

(** The lookup is the first entry found along [consulted_pairs]. *)
Lemma get_contact_parameters_first_consulted
    (cps : gmap sorted_pair ContactParameters) (geom1 geom2 : CollisionGeometry) :
  get_contact_parameters cps geom1 geom2
    = head (omap (fun pair => cps !! pair) (consulted_pairs geom1 geom2)).
Proof.
  unfold get_contact_parameters, consulted_pairs. cbv zeta.
  destruct (if sb_is_rigid_body (get_single_body geom1)
            then rb_articulated_body (get_single_body geom1) else None) as [a1|];
  destruct (if sb_is_rigid_body (get_single_body geom2)
            then rb_articulated_body (get_single_body geom2) else None) as [a2|];
  simpl;
  repeat (match goal with
          | |- context [cps !! ?k] => destruct (cps !! k); simpl
          end; try reflexivity).
Qed.

(** X2.  [get_contact_parameters] finds no contact data exactly when the
    table has no entry for any of the pairs it consults, and what it finds
    is an entry of the table for one of those pairs. *)
Theorem get_contact_parameters_from_table
    (cps : gmap sorted_pair ContactParameters) (geom1 geom2 : CollisionGeometry) :
  (get_contact_parameters cps geom1 geom2 = None <->
   forall pair, pair ∈ consulted_pairs geom1 geom2 -> cps !! pair = None) /\
  (forall c, get_contact_parameters cps geom1 geom2 = Some c ->
             exists pair, pair ∈ consulted_pairs geom1 geom2 /\
                          cps !! pair = Some c).
Proof.
  rewrite get_contact_parameters_first_consulted. split.
  - apply first_found_None.
  - intros c. apply first_found_Some.
Qed.

(** X3.  Parameters entered for a pair of geometries are what the lookup
    returns for these two geometries, in either order, whatever else the
    table holds for their bodies. *)
Theorem get_contact_parameters_geometry_pair
    (cps : gmap sorted_pair ContactParameters)
    (geom1 geom2 : CollisionGeometry) (c : ContactParameters) :
  let cps' := <[make_sorted_pair (geom_ptr geom1) (geom_ptr geom2) := c]> cps in
  get_contact_parameters cps' geom1 geom2 = Some c /\
  get_contact_parameters cps' geom2 geom1 = Some c.
Proof.
  intros cps'. unfold get_contact_parameters. split.
  - subst cps'. rewrite lookup_insert_eq. reflexivity.
  - subst cps'.
    rewrite (make_sorted_pair_comm (geom_ptr geom2) (geom_ptr geom1)).
    rewrite lookup_insert_eq. reflexivity.
Qed.

(** X4.  When at most one of the two bodies is a link of an articulated
    body, [get_contact_parameters] follows the six levels of its
    documentation exactly. *)
Theorem get_contact_parameters_follows_levels
    (cps : gmap sorted_pair ContactParameters) (geom1 geom2 : CollisionGeometry) :
  (if sb_is_rigid_body (get_single_body geom1)
   then rb_articulated_body (get_single_body geom1) else None) = None \/
  (if sb_is_rigid_body (get_single_body geom2)
   then rb_articulated_body (get_single_body geom2) else None) = None ->
  get_contact_parameters cps geom1 geom2
    = get_contact_parameters_by_level cps geom1 geom2.
Proof.
  unfold get_contact_parameters, get_contact_parameters_by_level. cbv zeta.
  intros [Hab | Hab]; rewrite Hab;
    destruct (cps !! make_sorted_pair (geom_ptr geom1) (geom_ptr geom2));
    simpl; try reflexivity;
    destruct (cps !! make_sorted_pair (geom_ptr geom1)
                       (sb_ptr (get_single_body geom2)));
    simpl; try reflexivity;
    destruct (cps !! make_sorted_pair (geom_ptr geom2)
                       (sb_ptr (get_single_body geom1)));
    simpl; try reflexivity;
    destruct (cps !! make_sorted_pair (sb_ptr (get_single_body geom1))
                       (sb_ptr (get_single_body geom2)));
    simpl; try reflexivity.
  - destruct (if sb_is_rigid_body (get_single_body geom2)
              then rb_articulated_body (get_single_body geom2) else None);
      simpl; [|reflexivity].
    destruct (cps !! _); reflexivity.
  - destruct (if sb_is_rigid_body (get_single_body geom1)
              then rb_articulated_body (get_single_body geom1) else None);
      simpl; [|reflexivity].
    destruct (cps !! make_sorted_pair (geom_ptr geom2) _); simpl; [reflexivity|].
    destruct (cps !! _); reflexivity.
Qed.

(** ** preprocess_event and handle_events *)

Section HandlerProperties.

Context {EventKey : Type} `{Countable EventKey}.
Variable event_identity : Event -> EventKey.
Variable calc_event_vel : list Body -> Event -> double.
Variable process_events : list Body -> list Event -> ProcessOutcome.
Local Abbreviation State := (Sim (EventKey := EventKey)).
Implicit Types (s : State).

(** [preprocess_event] reads the contact parameters and appends to the
    diagnostics, nothing else. *)
Lemma preprocess_event_effect e s :
  let '(e', s') := preprocess_event e s in
  s' = (if lacks_contact_data (contact_params s) e
        then set_cerr (cerr s ++ [warning_of e]) s else s) /\
  (lacks_contact_data (contact_params s) e = true -> e' = e) /\
  (event_type e = eLimit \/ event_type e = eNone -> e' = e) /\
  (forall cparams,
      event_type e = eContact ->
      get_contact_parameters (contact_params s) (contact_geom1 e) (contact_geom2 e)
        = Some cparams ->
      e' = set_contact_parameters cparams e).
Proof.
  unfold preprocess_event, lacks_contact_data, warning_of.
  destruct (event_type e) eqn:Htype.
  - repeat split; intros; try reflexivity; discriminate.
  - destruct (get_contact_parameters _ _ _) as [c|]; simpl.
    + split; [reflexivity|]. split; [discriminate|].
      split; [intros [Hc|Hc]; discriminate|].
      intros cparams _ [= <-]. reflexivity.
    + split; [reflexivity|]. split; [reflexivity|].
      split; [intros [Hc|Hc]; discriminate|].
      intros cparams _ Hc. discriminate.
  - repeat split; intros; try reflexivity; discriminate.
  - repeat split; intros; try reflexivity; discriminate.
Qed.

Lemma preprocess_event_fst_ext e s s0 :
  contact_params s = contact_params s0 ->
  fst (preprocess_event e s) = fst (preprocess_event e s0).
Proof.
  intros Hcp. unfold preprocess_event. rewrite Hcp.
  destruct (event_type e); try reflexivity;
    destruct (get_contact_parameters _ _ _); reflexivity.
Qed.

Lemma preprocess_events_loop n s :
  let s' := for_range n preprocess_events_at s in
  contact_params s' = contact_params s /\
  current_time s' = current_time s /\
  _q0 s' = _q0 s /\ _qf s' = _qf s /\ _qdf s' = _qdf s /\
  collision_detectors s' = collision_detectors s /\
  cerr s' = cerr s
            ++ (warning_of <$> filter (fun e => lacks_contact_data (contact_params s) e = true)
                                 (take n (_events s))) /\
  forall i, _events s' !! i =
            if decide (i < n)%nat
            then (fun e => fst (preprocess_event e s)) <$> _events s !! i
            else _events s !! i.
Proof.
  induction n as [|n IH]; simpl.
  - repeat split;
      try (intros i; destruct (decide (i < 0)%nat); [lia | reflexivity]);
      try (cbn; rewrite app_nil_r; reflexivity).
  - rewrite for_range_S.
    destruct IH as (Hcp & Ht & Hq0 & Hqf & Hqdf & Hcd & Hcerr & Hev).
    set (sn := for_range n preprocess_events_at s) in *.
    unfold preprocess_events_at.
    pose proof (Hev n) as Hn. destruct (decide (n < n)%nat); [lia|].
    rewrite Hn.
    destruct (_events s !! n) as [e|] eqn:En.
    + pose proof (preprocess_event_effect e sn) as Heff.
      pose proof (preprocess_event_fst_ext e sn s Hcp) as Hfst.
      destruct (preprocess_event e sn) as [e' s'] eqn:Hpre.
      destruct Heff as (Hs' & _). simpl in Hfst. subst e'.
      rewrite (take_S_r _ _ _ En), filter_app, fmap_app, app_assoc, <- Hcerr.
      rewrite Hcp in Hs'.
      assert (Hlen : (n < length (_events sn))%nat)
        by (apply lookup_lt_is_Some; rewrite Hn; eauto).
      assert (Hframe : contact_params s' = contact_params sn /\
                       current_time s' = current_time sn /\
                       _q0 s' = _q0 sn /\ _qf s' = _qf sn /\ _qdf s' = _qdf sn /\
                       collision_detectors s' = collision_detectors sn /\
                       _events s' = _events sn /\
                       cerr s' = cerr sn
                                 ++ (warning_of <$> filter (fun e => lacks_contact_data (contact_params s) e = true) [e])).
      { rewrite filter_cons, filter_nil.
        destruct (decide (lacks_contact_data (contact_params s) e = true)) as [Hl|Hl].
        - rewrite Hl in Hs'. subst s'. repeat split.
        - apply not_true_is_false in Hl. rewrite Hl in Hs'. subst s'.
          simpl. rewrite app_nil_r. repeat split. }
      destruct Hframe as (Hcp' & Ht' & Hq0' & Hqf' & Hqdf' & Hcd' & Hev' & Hcerr').
      cbn [contact_params current_time _q0 _qf _qdf collision_detectors cerr
             _events set_events].
      repeat split; try congruence.
      intros i. rewrite Hev', list_lookup_insert.
      destruct (decide (n = i /\ n < length (_events sn))%nat) as [[-> _]|Hne].
      * destruct (decide (i < S i)%nat); [|lia]. rewrite En. reflexivity.
      * rewrite Hev.
        destruct (decide (i < n)%nat), (decide (i < S n)%nat);
          try reflexivity; try lia.
    + assert (Htake : take (S n) (_events s) = take n (_events s)).
      { apply lookup_ge_None in En. rewrite !take_ge by lia. reflexivity. }
      rewrite Htake.
      repeat split; try assumption.
      intros i. rewrite Hev.
      destruct (decide (i < n)%nat), (decide (i < S n)%nat);
        try reflexivity; try lia.
      assert (i = n) by lia. subst i. rewrite En. reflexivity.
Qed.

(** X5.  When every event is a limit, none or contact event (the
    assertion of line 340 holds wherever it is reached), preprocessing
    the events keeps their number, leaves every limit event, every none
    event and every contact without contact data as it is, gives every
    contact with contact data the parameters that the lookup finds, and
    writes one warning for each contact without contact data, in the order
    of the events. *)
Theorem preprocess_events_warns_per_contact s :
  Forall (fun e => preprocess_reaches_contact e = true) (_events s) ->
  let s' := preprocess_events s in
  let unmatched := fun e => lacks_contact_data (contact_params s) e = true in
  length (_events s') = length (_events s) /\
  cerr s' = cerr s ++ (warning_of <$> filter unmatched (_events s)) /\
  (forall e, unmatched e -> event_type e = eContact) /\
  (forall i e,
      _events s !! i = Some e ->
      event_type e = eLimit \/ event_type e = eNone \/ unmatched e ->
      _events s' !! i = Some e) /\
  (forall i e cparams,
      _events s !! i = Some e ->
      event_type e = eContact ->
      get_contact_parameters (contact_params s) (contact_geom1 e) (contact_geom2 e)
        = Some cparams ->
      _events s' !! i = Some (set_contact_parameters cparams e)).
Proof.
  intros _ s' unmatched.
  destruct (preprocess_events_loop (length (_events s)) s)
    as (_ & _ & _ & _ & _ & _ & Hcerr & Hev).
  fold (preprocess_events s) in Hcerr, Hev. fold s' in Hcerr, Hev.
  rewrite firstn_all in Hcerr.
  assert (Hat : forall i e, _events s !! i = Some e ->
                            _events s' !! i = Some (fst (preprocess_event e s))).
  { intros i e Hi. rewrite Hev.
    destruct (decide (i < length (_events s))%nat) as [_|Hge].
    - rewrite Hi. reflexivity.
    - apply lookup_lt_Some in Hi. lia. }
  split; [|split; [|split; [|split]]].
  - destruct (preprocess_events_frame s) as (_ & _ & _ & Hlen). exact Hlen.
  - exact Hcerr.
  - intros e. unfold unmatched, lacks_contact_data.
    destruct (event_type e); try discriminate. reflexivity.
  - intros i e Hi Hcase. rewrite (Hat i e Hi). f_equal.
    pose proof (preprocess_event_effect e s) as Heff.
    destruct (preprocess_event e s) as [e' s1]. simpl.
    destruct Heff as (_ & Hlacks & Hkind & _).
    destruct Hcase as [Hl | [Hn | Hu]]; auto.
  - intros i e cparams Hi Htype Hfound. rewrite (Hat i e Hi). f_equal.
    pose proof (preprocess_event_effect e s) as Heff.
    destruct (preprocess_event e s) as [e' s1]. simpl.
    destruct Heff as (_ & _ & _ & Hdata). apply Hdata; assumption.
Qed.

Lemma handle_events_calls s :
  process_events_calls (handle_events event_identity calc_event_vel process_events s)
    = S (process_events_calls s).
Proof.
  unfold handle_events. cbv zeta.
  destruct (preprocess_events_frame s) as (_ & _ & Hc & _).
  set (sp := preprocess_events s) in *.
  change (_bodies (set_process_events_calls (S (process_events_calls sp)) sp))
    with (_bodies sp).
  change (_events (set_process_events_calls (S (process_events_calls sp)) sp))
    with (_events sp).
  destruct (process_events (_bodies sp) (_events sp)) as [b es | b es named].
  - simpl. rewrite Hc. reflexivity.
  - match goal with
    | |- context [foldl _ ?s0 named] =>
        destruct (update_tolerance_loop event_identity calc_event_vel named s0)
          as (_ & _ & _ & Hc')
    end.
    cbv zeta in Hc'. rewrite Hc'. simpl. rewrite Hc. reflexivity.
Qed.

Lemma update_tolerance_frame named s :
  let s' := foldl (update_tolerance event_identity calc_event_vel) s named in
  current_time s' = current_time s /\ _q0 s' = _q0 s /\ _qf s' = _qf s /\
  _qdf s' = _qdf s /\ contact_params s' = contact_params s /\
  collision_detectors s' = collision_detectors s /\ cerr s' = cerr s.
Proof.
  revert s. induction named as [|ev named IH]; intros s; simpl.
  - repeat split.
  - destruct (IH (update_tolerance event_identity calc_event_vel s ev))
      as (Ht & Hq0 & Hqf & Hqdf & Hcp & Hcd & Hcerr).
    repeat split; assumption.
Qed.

(** What [handle_events] never touches: the time, the cached
    coordinates and velocities, the contact parameters, the detectors. *)
Lemma handle_events_frame s :
  let s' := handle_events event_identity calc_event_vel process_events s in
  current_time s' = current_time s /\ _q0 s' = _q0 s /\ _qf s' = _qf s /\
  _qdf s' = _qdf s /\ contact_params s' = contact_params s /\
  collision_detectors s' = collision_detectors s.
Proof.
  unfold handle_events. cbv zeta.
  destruct (preprocess_events_loop (length (_events s)) s)
    as (Hcp & Ht & Hq0 & Hqf & Hqdf & Hcd & _ & _).
  fold (preprocess_events s) in Hcp, Ht, Hq0, Hqf, Hqdf, Hcd.
  set (sp := preprocess_events s) in *.
  change (_bodies (set_process_events_calls (S (process_events_calls sp)) sp))
    with (_bodies sp).
  change (_events (set_process_events_calls (S (process_events_calls sp)) sp))
    with (_events sp).
  destruct (process_events (_bodies sp) (_events sp)) as [b es | b es named].
  - simpl. repeat split; assumption.
  - match goal with
    | |- context [foldl _ ?s0 named] =>
        destruct (update_tolerance_frame named s0)
          as (Ht' & Hq0' & Hqf' & Hqdf' & Hcp' & Hcd' & _)
    end.
    cbv zeta in Ht', Hq0', Hqf', Hqdf', Hcp', Hcd'.
    rewrite Ht', Hq0', Hqf', Hqdf', Hcp', Hcd'. simpl.
    repeat split; assumption.
Qed.

Lemma learned_grows bodies (table : gmap EventKey double) named :
  tolerances_grow table (learned event_identity calc_event_vel bodies table named).
Proof.
  revert table. induction named as [|ev named IH]; intros table.
  - split; [auto|]. intros k v Hk. left. exact Hk.
  - unfold learned. simpl.
    set (v0 := fabs (calc_event_vel bodies ev) + DBL_EPSILON).
    destruct (IH (<[event_identity ev := v0]> table)) as [Hkeys Hvals].
    unfold learned in Hkeys, Hvals. split.
    + intros k Hk. apply Hkeys.
      destruct (decide (event_identity ev = k)) as [Heq|Hne].
      * subst k. rewrite lookup_insert_eq. eauto.
      * rewrite lookup_insert_ne by exact Hne. exact Hk.
    + intros k v Hk. destruct (Hvals k v Hk) as [Hin | Hge]; [|right; exact Hge].
      destruct (decide (event_identity ev = k)) as [Heq|Hne].
      * subst k. rewrite lookup_insert_eq in Hin. injection Hin as <-. right.
        unfold v0, fabs. pose proof (Qabs_nonneg (calc_event_vel bodies ev)). lra.
      * rewrite lookup_insert_ne in Hin by exact Hne. left. exact Hin.
Qed.

Lemma tolerances_grow_refl (table : gmap EventKey double) :
  tolerances_grow table table.
Proof. split; [auto|]. intros k v Hk. left. exact Hk. Qed.

Lemma tolerances_grow_trans (t1 t2 t3 : gmap EventKey double) :
  tolerances_grow t1 t2 -> tolerances_grow t2 t3 -> tolerances_grow t1 t3.
Proof.
  intros [Hk12 Hv12] [Hk23 Hv23]. split.
  - intros k Hk. apply Hk23, Hk12, Hk.
  - intros k v Hk. destruct (Hv23 k v Hk) as [Hin | Hge]; [|right; exact Hge].
    apply Hv12. exact Hin.
Qed.

Lemma handle_events_tolerances s :
  tolerances_grow (_event_tolerances s)
    (_event_tolerances (handle_events event_identity calc_event_vel process_events s)).
Proof.
  unfold handle_events. cbv zeta.
  destruct (preprocess_events_frame s) as (_ & Ht & _ & _).
  set (sp := preprocess_events s) in *.
  change (_bodies (set_process_events_calls (S (process_events_calls sp)) sp))
    with (_bodies sp).
  change (_events (set_process_events_calls (S (process_events_calls sp)) sp))
    with (_events sp).
  destruct (process_events (_bodies sp) (_events sp)) as [b es | b es named].
  - simpl. rewrite Ht. apply tolerances_grow_refl.
  - match goal with
    | |- context [foldl _ ?s0 named] =>
        destruct (update_tolerance_loop event_identity calc_event_vel named s0)
          as (Ht' & _)
    end.
    cbv zeta in Ht'. rewrite Ht'. simpl. rewrite Ht. apply learned_grows.
Qed.

(** X6.  When the impact resolver resolves the events without throwing,
    [handle_events] has invoked it once, leaves the bodies and events as
    the resolver left them, and changes neither the tolerance table nor
    the time. *)
Theorem handle_events_on_success s bodies' events' :
  process_events (_bodies (preprocess_events s)) (_events (preprocess_events s))
    = Resolved bodies' events' ->
  let s' := handle_events event_identity calc_event_vel process_events s in
  _bodies s' = bodies' /\ _events s' = events' /\
  _event_tolerances s' = _event_tolerances s /\
  process_events_calls s' = S (process_events_calls s) /\
  current_time s' = current_time s.
Proof.
  intros Hok s'.
  destruct (handle_events_frame s) as (Htime & _). fold s' in Htime.
  pose proof (handle_events_calls s) as Hcalls. fold s' in Hcalls.
  subst s'. unfold handle_events in *. cbv zeta in *.
  destruct (preprocess_events_frame s) as (_ & Ht & _ & _).
  set (sp := preprocess_events s) in *.
  change (_bodies (set_process_events_calls (S (process_events_calls sp)) sp))
    with (_bodies sp) in *.
  change (_events (set_process_events_calls (S (process_events_calls sp)) sp))
    with (_events sp) in *.
  rewrite Hok in *. simpl in *.
  repeat split; assumption.
Qed.

End HandlerProperties.

(** ** find_TOI *)

Lemma fmap_alter_coordinates {A : Type} (f : Body -> A) (q : VectorNd)
    (i : nat) (l : list Body) :
  (forall b, f (set_generalized_coordinates q b) = f b) ->
  f <$> alter (set_generalized_coordinates q) i l = f <$> l.
Proof.
  intros Hf. apply list_eq. intros j.
  rewrite !list_lookup_fmap, list_lookup_alter.
  destruct (decide (i = j)) as [->|_]; [|reflexivity].
  destruct (l !! j); simpl; [rewrite Hf|]; reflexivity.
Qed.

Section WalkProperties.

Context {EventKey : Type} `{Countable EventKey}.
Variable calc_event_vel : list Body -> Event -> double.
Local Abbreviation State := (Sim (EventKey := EventKey)).
Implicit Types (s : State).

Lemma keeps_refl s : keeps_all_but_positions s s.
Proof. repeat split. Qed.

Lemma keeps_trans s1 s2 s3 :
  keeps_all_but_positions s1 s2 -> keeps_all_but_positions s2 s3 ->
  keeps_all_but_positions s1 s3.
Proof.
  unfold keeps_all_but_positions.
  intros (?&?&?&?&?&?&?&?&?&?&?) (?&?&?&?&?&?&?&?&?&?&?).
  repeat split; congruence.
Qed.

Lemma keeps_loop n (body : nat -> State -> State) s :
  (forall i s0, keeps_all_but_positions s0 (body i s0)) ->
  keeps_all_but_positions s (for_range n body s).
Proof.
  intros Hbody.
  apply (for_range_preserves (keeps_all_but_positions s)); [|apply keeps_refl].
  intros i s' Hs'. eapply keeps_trans; [exact Hs' | apply Hbody].
Qed.

Lemma time_loop n (body : nat -> State -> State) s :
  (forall i s0, current_time (body i s0) = current_time s0) ->
  current_time (for_range n body s) = current_time s.
Proof.
  intros Hbody.
  apply (for_range_preserves (fun s' => current_time s' = current_time s));
    [|reflexivity].
  intros i s' Hs'. rewrite Hbody. exact Hs'.
Qed.

Ltac keeps_positions :=
  unfold keeps_all_but_positions; cbv zeta;
  cbn [_event_tolerances contact_params collision_detectors cerr
         process_events_calls _qdf _bodies _q0 _qf
         set_qf set_q0 set_bodies set_events set_current_time];
  rewrite ?length_insert,
    ?(fmap_alter_coordinates body_gv), ?(fmap_alter_coordinates body_ptr),
    ?(fmap_alter_coordinates body_is_articulated) by reflexivity;
  repeat split.

Lemma keeps_integrate_fully dt i s :
  keeps_all_but_positions s (integrate_fully dt i s).
Proof. unfold integrate_fully. keeps_positions. Qed.

Lemma keeps_integrate_to h i s :
  keeps_all_but_positions s (integrate_to h i s).
Proof. unfold integrate_to. keeps_positions. Qed.

Lemma keeps_step_positions h i s :
  keeps_all_but_positions s (step_positions h i s).
Proof. unfold step_positions. keeps_positions. Qed.

Lemma keeps_integrate_after_walk dt i s :
  keeps_all_but_positions s (integrate_after_walk dt i s).
Proof. unfold integrate_after_walk. keeps_positions. Qed.

Lemma keeps_set_events evs s : keeps_all_but_positions s (set_events evs s).
Proof. repeat split. Qed.

Lemma keeps_set_current_time x s :
  keeps_all_but_positions s (set_current_time x s).
Proof. repeat split. Qed.

(** The state in which [find_TOI] leaves when the first candidate lies
    beyond [dt] (lines 1101-1114). *)
Lemma find_TOI_no_impacts_outcome dt s :
  let r := find_TOI_no_impacts dt s in
  fst r = DBL_MAX /\ _events (snd r) = [] /\
  current_time (snd r) = current_time s + dt /\
  keeps_all_but_positions s (snd r).
Proof.
  unfold find_TOI_no_impacts. cbv zeta. cbn [fst snd].
  split; [reflexivity|]. split; [|split].
  - cbn [_events set_current_time]. apply integrate_after_walk_events.
  - cbn [current_time set_current_time]. f_equal.
    rewrite time_loop by reflexivity. reflexivity.
  - eapply keeps_trans; [|apply keeps_set_current_time].
    eapply keeps_trans; [apply (keeps_set_events [])|].
    apply keeps_loop. intros i s0. apply keeps_integrate_after_walk.
Qed.

Lemma scan_simultaneous_group bodies dt tmin rest citer impacting :
  forall citer' impacting',
    scan_simultaneous calc_event_vel bodies dt tmin rest citer impacting
      = (citer', impacting') ->
    (forall k e, (k < citer' - citer)%nat -> rest !! k = Some e ->
                 t e * dt <= tmin + DBL_EPSILON) /\
    (forall e, rest !! (citer' - citer)%nat = Some e ->
               tmin + DBL_EPSILON < t e * dt).
Proof.
  revert citer impacting.
  induction rest as [|e rest IH]; intros citer impacting citer' impacting'; simpl.
  - intros [= <- <-]. split; [intros k e Hk; lia | intros e; discriminate].
  - destruct (dgt (t e * dt) (tmin + DBL_EPSILON)) eqn:Hgt.
    + intros [= <- <-]. split; [intros k e' Hk; lia|].
      rewrite Nat.sub_diag. intros e' [= <-]. apply dgt_spec. exact Hgt.
    + intros Hscan.
      destruct (scan_simultaneous_spec calc_event_vel _ _ _ _ _ _ _ _ Hscan)
        as [Hrange _].
      apply IH in Hscan as [Hin Hnext].
      apply dlt_false in Hgt. split.
      * intros k e' Hk. destruct k as [|k]; simpl.
        -- intros [= <-]. exact Hgt.
        -- apply Hin. lia.
      * intros e'. replace (citer' - citer)%nat with (S (citer' - S citer)) by lia.
        simpl. apply Hnext.
Qed.

Lemma step_positions_q0 h n s :
  forall i, _q0 (for_range n (step_positions h) s) !! i =
            if decide (i < n)%nat
            then (fun q => vec_add q (vec_scale (_qdf s !!! i) h)) <$> _q0 s !! i
            else _q0 s !! i.
Proof.
  induction n as [|n IH]; intros i.
  - destruct (decide (i < 0)%nat); [lia | reflexivity].
  - rewrite for_range_S.
    destruct (step_positions_loop h n s) as (Hqdf & _ & Hq0 & _).
    set (sn := for_range n (step_positions h) s) in *.
    unfold step_positions. cbn [_q0 set_bodies set_q0 set_qf _qdf].
    rewrite Hqdf, list_lookup_insert.
    rewrite (lookup_total_eq (_q0 sn) (_q0 s) n) by (apply Hq0; lia).
    destruct (decide (n = i /\ n < length (_q0 sn))%nat) as [[-> Hlen]|Hne].
    + destruct (decide (i < S i)%nat); [|lia].
      assert (Hi : is_Some (_q0 s !! i)).
      { rewrite <- (Hq0 i) by lia. apply lookup_lt_is_Some. exact Hlen. }
      rewrite (list_lookup_lookup_total _ _ Hi). reflexivity.
    + rewrite IH.
      destruct (decide (i < n)%nat), (decide (i < S n)%nat);
        try reflexivity; try lia.
      assert (i = n) by lia. subst i.
      assert (Hnone : _q0 sn !! n = None).
      { apply lookup_ge_None. destruct (decide (n < length (_q0 sn))%nat); [|lia].
        exfalso. apply Hne. auto. }
      rewrite (Hq0 n) in Hnone by lia. rewrite Hnone. reflexivity.
Qed.

(** What [find_TOI] does, exit by exit.  Either it leaves with the
    sentinel, or it commits the first group [take n (_events s)]. *)
Lemma find_TOI_outcome dt s h s' :
  find_TOI calc_event_vel dt s = Some (h, s') ->
  keeps_all_but_positions s s' /\
  ((h = DBL_MAX /\ _events s' = [] /\ current_time s' = current_time s + dt) \/
   (exists e0 n,
       _events s !! 0%nat = Some e0 /\ t e0 * dt <= dt /\ h = 0 + t e0 * dt /\
       (0 < n <= length (_events s))%nat /\
       _events s' = take n (_events s) /\
       current_time s' = current_time s + h /\
       (forall k e, (k < n)%nat -> _events s !! k = Some e ->
                    t e * dt <= t e0 * dt + DBL_EPSILON) /\
       (forall e, _events s !! n = Some e ->
                  t e0 * dt + DBL_EPSILON < t e * dt) /\
       (forall i, _q0 s' !! i =
                  (fun q => vec_add q (vec_scale (_qdf s !!! i) h)) <$> _q0 s !! i) /\
       (forall i, _bodies s' !! i =
                  if decide (i < length (_q0 s))%nat
                  then set_generalized_coordinates
                         (vec_add (_q0 s !!! i) (vec_scale (_qdf s !!! i) h))
                         <$> _bodies s !! i
                  else _bodies s !! i))).
Proof.
  unfold find_TOI.
  destruct (_events s) as [|e rest] eqn:E.
  - rewrite find_TOI_loop_end by (rewrite E; reflexivity).
    pose proof (find_TOI_no_impacts_outcome dt s) as Hout. cbv zeta in Hout.
    destruct (find_TOI_no_impacts dt s) as [h0 s0]. simpl in Hout.
    destruct Hout as (Hh & Hev & Ht & Hk).
    intros [= <- <-].
    split; [exact Hk|]. left. auto.
  - cbn [length find_TOI_loop]. rewrite E.
    change ((e :: rest) !! 0%nat) with (Some e). cbv beta iota zeta.
    destruct (dgt (t e * dt) dt) eqn:Hgt.
    + intros [= <- <-]. split.
      * eapply keeps_trans; [|apply keeps_set_current_time].
        eapply keeps_trans; [apply (keeps_set_events [])|].
        apply keeps_loop. intros i s0. apply keeps_integrate_fully.
      * left. split; [reflexivity|]. split.
        -- cbn [_events set_current_time]. rewrite integrate_fully_events.
           reflexivity.
        -- cbn [current_time set_current_time]. f_equal.
           rewrite time_loop by reflexivity. reflexivity.
    + apply dlt_false in Hgt.
      destruct (integrate_to_loop (0 + t e * dt) (length (_q0 s)) s)
        as (Hq0 & Hqdf & Hev & Hb1).
      pose proof (keeps_loop (length (_q0 s)) (integrate_to (0 + t e * dt)) s
                    (keeps_integrate_to (0 + t e * dt))) as Hk1.
      pose proof (time_loop (length (_q0 s)) (integrate_to (0 + t e * dt)) s
                    (fun i s0 => eq_refl)) as Ht1.
      set (s1 := for_range (length (_q0 s)) (integrate_to (0 + t e * dt)) s) in *.
      destruct (scan_simultaneous calc_event_vel (_bodies s1) dt (t e * dt)
                  (drop 1 (_events s1)) 1
                  (is_impacting calc_event_vel (_bodies s1) e))
        as [citer impacting] eqn:Hscan.
      pose proof (scan_simultaneous_spec calc_event_vel _ _ _ _ _ _ _ _ Hscan)
        as [Hrange _].
      pose proof (scan_simultaneous_group _ _ _ _ _ _ _ _ Hscan) as [Hin Hnext].
      rewrite Hev, E in Hrange, Hin, Hnext.
      cbn [drop] in Hrange, Hin, Hnext. rewrite drop_0 in Hrange, Hin, Hnext.
      simpl in Hrange.
      set (s2 := set_events (take citer (_events s1)) s1) in *.
      assert (Hq02 : _q0 s2 = _q0 s) by exact Hq0.
      assert (Hqdf2 : _qdf s2 = _qdf s) by exact Hqdf.
      assert (Hb2 : _bodies s2 = _bodies s1) by reflexivity.
      assert (Hev2 : _events s2 = take citer (e :: rest)).
      { unfold s2. cbn [_events set_events]. rewrite Hev, E. reflexivity. }
      assert (Ht2 : current_time s2 = current_time s) by exact Ht1.
      destruct impacting.
      * intros [= <- <-].
        pose proof (keeps_loop (length (_q0 s1)) (step_positions (0 + t e * dt)) s2
                      (keeps_step_positions (0 + t e * dt))) as Hk3.
        pose proof (time_loop (length (_q0 s1)) (step_positions (0 + t e * dt)) s2
                      (fun i s0 => eq_refl)) as Ht3.
        destruct (step_positions_loop (0 + t e * dt) (length (_q0 s1)) s2)
          as (_ & Hev3 & _ & Hb3).
        pose proof (step_positions_q0 (0 + t e * dt) (length (_q0 s1)) s2) as Hq3.
        set (s3 := for_range (length (_q0 s1)) (step_positions (0 + t e * dt)) s2) in *.
        rewrite Hq0, Hq02, Hqdf2, Hb2 in Hb3. rewrite Hq0, Hq02, Hqdf2 in Hq3.
        rewrite Hev2 in Hev3. rewrite Ht2 in Ht3.
        split.
        -- eapply keeps_trans; [|apply keeps_set_current_time].
           eapply keeps_trans; [exact Hk1|].
           eapply keeps_trans; [apply (keeps_set_events (take citer (_events s1)))|].
           exact Hk3.
        -- right. exists e, citer.
           split; [reflexivity|]. split; [exact Hgt|]. split; [reflexivity|].
           split; [simpl; lia|]. split; [exact Hev3|].
           split; [cbn [current_time set_current_time]; rewrite Ht3; reflexivity|].
           split; [|split; [|split]].
           ++ intros k e' Hk He'. destruct k as [|k]; simpl in He'.
              ** injection He' as <-.
                 assert (0 < DBL_EPSILON) by reflexivity. lra.
              ** apply (Hin k e'); [lia | exact He'].
           ++ intros e' He'. apply Hnext.
              destruct citer as [|c]; [lia|]. simpl in He'.
              replace (S c - 1)%nat with c by lia. exact He'.
           ++ intros i. cbn [_q0 set_current_time]. rewrite Hq3.
              destruct (decide (i < length (_q0 s))%nat) as [Hi|Hi]; [reflexivity|].
              apply not_lt in Hi. apply lookup_ge_None in Hi. rewrite Hi. reflexivity.
           ++ intros i. cbn [_bodies set_current_time]. rewrite Hb3, Hb1.
              destruct (decide (i < length (_q0 s))%nat) as [Hi|Hi]; [|reflexivity].
              destruct (_bodies s !! i); reflexivity.
      * rewrite find_TOI_loop_end.
        2:{ apply lookup_ge_None. lia. }
        pose proof (find_TOI_no_impacts_outcome dt s2) as Hout. cbv zeta in Hout.
        destruct (find_TOI_no_impacts dt s2) as [h0 s0]. simpl in Hout.
        destruct Hout as (Hh & Hev0 & Ht0 & Hk2).
        intros [= <- <-].
        split.
        -- eapply keeps_trans; [exact Hk1|].
           eapply keeps_trans; [apply (keeps_set_events (take citer (_events s1)))|].
           exact Hk2.
        -- left. split; [exact Hh|]. split; [exact Hev0|].
           rewrite Ht0. f_equal. exact Ht1.
Qed.

End WalkProperties.

Section WalkTheorems.

Context {EventKey : Type} `{Countable EventKey}.
Variable calc_event_vel : list Body -> Event -> double.
Local Abbreviation State := (Sim (EventKey := EventKey)).
Implicit Types (s : State).

(** X7.  [find_TOI] changes positions, events and time only: the cached
    end velocities, the bodies' velocities, the tolerance table, the
    contact parameters and the detectors are as before.  The time advances
    by [dt] when it leaves without events and by the returned [h] when it
    commits events. *)
Theorem find_TOI_moves_positions_and_time dt s h s' :
  find_TOI calc_event_vel dt s = Some (h, s') ->
  keeps_all_but_positions s s' /\
  current_time s' = current_time s + match _events s' with [] => dt | _ => h end.
Proof.
  intros Htoi.
  destruct (find_TOI_outcome calc_event_vel dt s h s' Htoi) as [Hkeeps Hexit].
  split; [exact Hkeeps|].
  destruct Hexit as [(_ & Hev & Ht) | (e0 & n & He0 & _ & _ & Hn & Hev & Ht & _)].
  - rewrite Hev. exact Ht.
  - rewrite Hev. destruct (_events s) as [|e rest]; [discriminate|].
    destruct n as [|n]; [lia|]. exact Ht.
Qed.

(** X8.  When [find_TOI] commits events at [h], every body has been moved
    from its start coordinates along the cached end velocity for the time
    [h], the start coordinates [_q0] have been advanced to these positions,
    and no velocity has changed. *)
Theorem find_TOI_commits_positions dt s h s' :
  find_TOI calc_event_vel dt s = Some (h, s') ->
  _events s' <> [] ->
  length (_bodies s) = length (_q0 s) ->
  (forall i, _q0 s' !! i =
             (fun q => vec_add q (vec_scale (_qdf s !!! i) h)) <$> _q0 s !! i) /\
  body_gc <$> _bodies s' = _q0 s' /\
  body_gv <$> _bodies s' = body_gv <$> _bodies s /\
  _qdf s' = _qdf s.
Proof.
  intros Htoi Hcommitted Hlen.
  destruct (find_TOI_outcome calc_event_vel dt s h s' Htoi) as [Hkeeps Hexit].
  destruct Hexit as [(_ & Hev & _) | (e0 & n & _ & _ & _ & _ & _ & _ & _ & _ & Hq0 & Hb)];
    [contradiction|].
  split; [exact Hq0|].
  destruct Hkeeps as (_ & _ & _ & _ & _ & Hqdf & Hgv & _).
  split; [|split; assumption].
  apply list_eq. intros i. rewrite list_lookup_fmap, Hb, Hq0.
  destruct (decide (i < length (_q0 s))%nat) as [Hi|Hi].
  - assert (Hq : is_Some (_q0 s !! i)) by (apply lookup_lt_is_Some; exact Hi).
    assert (Hbi : is_Some (_bodies s !! i)) by (apply lookup_lt_is_Some; lia).
    rewrite (list_lookup_lookup_total _ _ Hq).
    destruct Hbi as [b ->]. reflexivity.
  - apply not_lt in Hi.
    rewrite (proj2 (lookup_ge_None (_q0 s) i)) by exact Hi.
    rewrite (proj2 (lookup_ge_None (_bodies s) i)) by lia. reflexivity.
Qed.

(** X9.  The events that [find_TOI] commits are a nonempty prefix of the
    candidates, headed by the first candidate, whose time [h] it returns,
    not above [dt]; and the prefix ends at a gap: every committed event is
    strictly earlier than the first candidate left out, if there is
    one. *)
Theorem find_TOI_commits_first_group dt s h s' :
  find_TOI calc_event_vel dt s = Some (h, s') ->
  _events s' <> [] ->
  exists e0 n,
    _events s !! 0%nat = Some e0 /\ h = 0 + t e0 * dt /\ h <= dt /\
    (0 < n <= length (_events s))%nat /\ _events s' = take n (_events s) /\
    _events s' !! 0%nat = Some e0 /\
    (forall e next,
        e ∈ _events s' -> _events s !! n = Some next -> t e * dt < t next * dt).
Proof.
  intros Htoi Hcommitted.
  destruct (find_TOI_outcome calc_event_vel dt s h s' Htoi) as [_ Hexit].
  destruct Hexit
    as [(_ & Hev & _) | (e0 & n & He0 & Hle & Hh & Hn & Hev & _ & Hin & Hout & _)];
    [contradiction|].
  exists e0, n. split; [exact He0|]. split; [exact Hh|].
  split; [rewrite Hh; lra|]. split; [exact Hn|]. split; [exact Hev|]. split.
  - rewrite Hev, lookup_take.
    destruct (decide (0 < n)%nat); [exact He0 | lia].
  - intros e next He Hnext. rewrite Hev in He.
    apply list_elem_of_lookup in He as [k Hk].
    rewrite lookup_take in Hk.
    destruct (decide (k < n)%nat); [|discriminate].
    pose proof (Hin k e ltac:(assumption) Hk).
    pose proof (Hout next Hnext). lra.
Qed.

(** X10.  On candidates in ascending order of time and for [dt >= 0],
    every candidate within epsilon of the first one, in particular
    every candidate of the same time, is in the event set that [find_TOI]
    commits: events of equal time are never split. *)
Theorem find_TOI_keeps_equal_times_together dt s h s' e0 k e :
  find_TOI calc_event_vel dt s = Some (h, s') ->
  _events s' <> [] ->
  StronglySorted time_le (_events s) ->
  0 <= dt ->
  _events s !! 0%nat = Some e0 ->
  _events s !! k = Some e ->
  t e * dt <= t e0 * dt + DBL_EPSILON ->
  _events s' !! k = Some e.
Proof.
  intros Htoi Hcommitted Hsorted Hdt He0 He Hnear.
  destruct (find_TOI_outcome calc_event_vel dt s h s' Htoi) as [_ Hexit].
  destruct Hexit
    as [(_ & Hev & _) | (e0' & n & He0' & _ & _ & Hn & Hev & _ & _ & Hout & _)];
    [contradiction|].
  rewrite He0 in He0'. injection He0' as <-.
  rewrite Hev, lookup_take.
  destruct (decide (k < n)%nat) as [_|Hk]; [exact He|].
  exfalso.
  assert (Hlen : (k < length (_events s))%nat) by (eapply lookup_lt_Some; exact He).
  destruct (lookup_lt_is_Some_2 (_events s) n) as [en Hen]; [lia|].
  pose proof (Hout en Hen) as Hbeyond.
  assert (Hle : t en <= t e).
  { apply (StronglySorted_lookup_le (_events s) n k); [assumption | lia | assumption..]. }
  pose proof (Qmult_le_compat_r _ _ dt Hle Hdt). lra.
Qed.

End WalkTheorems.

(** ** The event-set builder and the search *)

Section SearchProperties.

Context {EventKey : Type} `{Countable EventKey}.
Variable event_identity : Event -> EventKey.
Variable calc_event_vel : list Body -> Event -> double.
Variable std_sort : list Event -> list Event.
Variable process_events : list Body -> list Event -> ProcessOutcome.
Variable ab_find_limit_events :
  Body -> VectorNd -> VectorNd -> double -> list Event.
Local Abbreviation State := (Sim (EventKey := EventKey)).
Implicit Types (s : State).

Local Abbreviation search :=
  (find_and_handle_si_events event_identity calc_event_vel std_sort
     process_events ab_find_limit_events).
Local Abbreviation build :=
  (build_event_set event_identity std_sort ab_find_limit_events).

Lemma keeps_events_refl s : keeps_all_but_events s s.
Proof. repeat split. Qed.

Lemma keeps_events_trans s1 s2 s3 :
  keeps_all_but_events s1 s2 -> keeps_all_but_events s2 s3 ->
  keeps_all_but_events s1 s3.
Proof.
  unfold keeps_all_but_events.
  intros (?&?&?&?&?&?&?&?&?&?) (?&?&?&?&?&?&?&?&?&?).
  repeat split; congruence.
Qed.

Lemma stamp_event_keeps dt i s :
  keeps_all_but_events s (stamp_event event_identity dt i s).
Proof.
  unfold stamp_event. destruct (_events s !! i); repeat split.
Qed.

Lemma detectors_loop_keeps dt x0 x1 (cds : list CollisionDetection) s :
  keeps_all_but_events s
    (foldl (fun s (cd : CollisionDetection) =>
              set_events (_events s ++ cd dt x0 x1) s) s cds).
Proof.
  revert s. induction cds as [|cd cds IH]; intros s; simpl.
  - apply keeps_events_refl.
  - eapply keeps_events_trans; [|apply IH]. repeat split.
Qed.

Lemma build_event_set_keeps dt s : keeps_all_but_events s (build dt s).
Proof.
  unfold build_event_set. cbv zeta.
  eapply keeps_events_trans; [|
    apply (for_range_preserves (keeps_all_but_events _));
      [|apply keeps_events_refl];
    intros i s' Hs'; eapply keeps_events_trans;
      [exact Hs' | apply stamp_event_keeps] ].
  eapply keeps_events_trans; [|repeat split].
  eapply keeps_events_trans; [|repeat split].
  eapply keeps_events_trans; [|apply detectors_loop_keeps].
  repeat split.
Qed.

Lemma find_limit_events_none dt s :
  Forall (fun b => body_is_articulated b = false) (_bodies s) ->
  find_limit_events ab_find_limit_events dt s = [].
Proof.
  intros Hnone. unfold find_limit_events.
  generalize (seq 0 (length (_bodies s))). intros l.
  induction l as [|i l IH] using rev_ind; [reflexivity|].
  rewrite foldl_snoc, IH.
  destruct (_bodies s !! i) as [ab|] eqn:Hab; [|reflexivity].
  rewrite (Forall_lookup_1 _ _ _ _ Hnone Hab). reflexivity.
Qed.

(** X11.  The builder changes nothing of the simulator but the events,
    and the events that it leaves are the sorted candidates, in the order
    of the sort, each with its real time set to
    [current_time + t * dt] and its tolerance replaced by the table's
    entry for its identity when there is one; every other field of an
    event is as the detector or the articulated body delivered it. *)
Theorem built_events_are_stamped dt s :
  let s' := build dt s in
  let stamped := fun c : Event =>
    let c' := set_t_true (current_time s + t c * dt) c in
    set_tol (default (tol c) (_event_tolerances s !! event_identity c')) c' in
  keeps_all_but_events s s' /\
  _events s'
    = stamped <$> std_sort (candidate_events ab_find_limit_events dt s) /\
  (forall e, e ∈ _events s' -> t_true e = current_time s + t e * dt).
Proof.
  intros s' stamped.
  destruct (build_event_set_events event_identity std_sort
              ab_find_limit_events dt s) as [Hev _].
  fold s' in Hev.
  assert (Hstamp : forall c, stamp event_identity dt s c = stamped c).
  { intros c. unfold stamp, stamped. cbv zeta.
    destruct (_event_tolerances s !! _); [reflexivity|].
    destruct c; reflexivity. }
  split; [apply build_event_set_keeps|]. split.
  - rewrite Hev. apply list_fmap_ext. intros i c _. apply Hstamp.
  - intros e He. rewrite Hev in He.
    apply list_elem_of_fmap in He as (c & -> & _).
    rewrite Hstamp. reflexivity.
Qed.

(** X12.  A search without collision detector and without articulated
    body (the sort leaving the empty sequence empty, [dt] not above the
    sentinel) finds no blocking event: it returns the sentinel, stores no
    event, does not invoke the resolver, leaves the tolerance table alone
    and advances the time by [dt]. *)
Theorem search_without_candidates dt s :
  std_sort [] = [] ->
  collision_detectors s = [] ->
  Forall (fun b => body_is_articulated b = false) (_bodies s) ->
  dt <= DBL_MAX ->
  exists s',
    search dt s = Some (DBL_MAX, s') /\
    _events s' = [] /\
    process_events_calls s' = process_events_calls s /\
    _event_tolerances s' = _event_tolerances s /\
    current_time s' = current_time s + dt.
Proof.
  intros Hsort Hcd Hab Hdt.
  destruct (build_event_set_events event_identity std_sort
              ab_find_limit_events dt s) as [Hev _].
  pose proof (build_event_set_keeps dt s) as Hkeeps.
  unfold candidate_events in Hev.
  rewrite Hcd, (find_limit_events_none dt s Hab) in Hev.
  simpl in Hev. rewrite Hsort in Hev. simpl in Hev.
  unfold find_and_handle_si_events. cbv zeta.
  set (sb := build dt s) in *.
  unfold find_TOI. rewrite find_TOI_loop_end by (rewrite Hev; reflexivity).
  pose proof (find_TOI_no_impacts_outcome dt sb) as Hout. cbv zeta in Hout.
  destruct (find_TOI_no_impacts dt sb) as [h0 s0]. simpl in Hout.
  destruct Hout as (-> & Hev0 & Ht0 & Hk0). simpl.
  assert (Hnot : dlt DBL_MAX dt = false) by (apply dlt_false; exact Hdt).
  rewrite Hnot. exists s0. split; [reflexivity|].
  destruct Hkeeps as (Ht & _ & _ & _ & _ & Htol & _ & _ & _ & Hcalls).
  destruct Hk0 as (Htol0 & _ & _ & _ & Hcalls0 & _).
  repeat split; congruence.
Qed.

(** X13.  A search invokes the impact resolver at most once, and exactly
    when the time [h] that it returns is below [dt]; in particular events
    committed at [h = dt] are returned unresolved.  When the resolver is
    not invoked the tolerance table is as before. *)
Theorem search_invokes_resolver_once dt s h s' :
  search dt s = Some (h, s') ->
  process_events_calls s'
    = (process_events_calls s + if dlt h dt then 1 else 0)%nat /\
  (dlt h dt = false -> _event_tolerances s' = _event_tolerances s).
Proof.
  unfold find_and_handle_si_events. cbv zeta.
  pose proof (build_event_set_keeps dt s) as Hkeeps.
  set (sb := build dt s) in *.
  destruct (find_TOI calc_event_vel dt sb) as [[h1 s1]|] eqn:Htoi;
    simpl; [|discriminate].
  intros [= <- <-].
  destruct (find_TOI_outcome calc_event_vel dt sb h1 s1 Htoi) as [Hk1 _].
  destruct Hkeeps as (_ & _ & _ & _ & _ & Htol & _ & _ & _ & Hcalls).
  destruct Hk1 as (Htol1 & _ & _ & _ & Hcalls1 & _).
  destruct (dlt h1 dt).
  - rewrite handle_events_calls, Hcalls1, Hcalls.
    split; [lia | discriminate].
  - rewrite Hcalls1, Hcalls, Htol1, Htol.
    split; [lia | reflexivity].
Qed.

Lemma search_tolerances_grow dt s h s' :
  search dt s = Some (h, s') ->
  tolerances_grow (_event_tolerances s) (_event_tolerances s').
Proof.
  unfold find_and_handle_si_events. cbv zeta.
  pose proof (build_event_set_keeps dt s) as Hkeeps.
  set (sb := build dt s) in *.
  destruct (find_TOI calc_event_vel dt sb) as [[h1 s1]|] eqn:Htoi;
    simpl; [|discriminate].
  intros [= <- <-].
  destruct (find_TOI_outcome calc_event_vel dt sb h1 s1 Htoi) as [Hk1 _].
  destruct Hkeeps as (_ & _ & _ & _ & _ & Htol & _).
  destruct Hk1 as (Htol1 & _).
  destruct (dlt h1 dt).
  - rewrite <- Htol, <- Htol1. apply handle_events_tolerances.
  - rewrite Htol1, Htol. apply tolerances_grow_refl.
Qed.

(** The time after a search: advanced by [dt] with the sentinel, by the
    time of the first built event otherwise. *)
Lemma search_time dt s h s' :
  search dt s = Some (h, s') ->
  (h = DBL_MAX /\ current_time s' = current_time s + dt) \/
  (exists e0, e0 ∈ _events (build dt s) /\ h = 0 + t e0 * dt /\ h <= dt /\
              current_time s' = current_time s + h).
Proof.
  unfold find_and_handle_si_events. cbv zeta.
  pose proof (build_event_set_keeps dt s) as Hkeeps.
  set (sb := build dt s) in *.
  destruct (find_TOI calc_event_vel dt sb) as [[h1 s1]|] eqn:Htoi;
    simpl; [|discriminate].
  intros [= <- <-].
  destruct (find_TOI_outcome calc_event_vel dt sb h1 s1 Htoi) as [_ Hexit].
  destruct Hkeeps as (Ht & _).
  assert (Hsame : current_time
                    (if dlt h1 dt
                     then handle_events event_identity calc_event_vel
                            process_events s1
                     else s1) = current_time s1).
  { destruct (dlt h1 dt); [|reflexivity].
    destruct (handle_events_frame event_identity calc_event_vel
                process_events s1) as (Hth & _). exact Hth. }
  rewrite Hsame.
  destruct Hexit as [(Hh & _ & Ht1) | (e0 & n & He0 & Hle & Hh & _ & _ & Ht1 & _)].
  - left. split; [exact Hh|]. rewrite Ht1, Ht. reflexivity.
  - right. exists e0. split; [|split; [exact Hh|split]].
    + apply list_elem_of_lookup. exists 0%nat. exact He0.
    + rewrite Hh. lra.
    + rewrite Ht1, Ht. reflexivity.
Qed.

End SearchProperties.

(** ** The tolerance that the handler learns *)

Section LearnedTolerance.

Context {EventKey : Type} `{Countable EventKey}.
Variable event_identity : Event -> EventKey.
Variable calc_event_vel : list Body -> Event -> double.
Variable std_sort : list Event -> list Event.
Variable process_events : list Body -> list Event -> ProcessOutcome.
Variable ab_find_limit_events :
  Body -> VectorNd -> VectorNd -> double -> list Event.
Local Abbreviation State := (Sim (EventKey := EventKey)).
Implicit Types (s : State).

Local Abbreviation search :=
  (find_and_handle_si_events event_identity calc_event_vel std_sort
     process_events ab_find_limit_events).
Local Abbreviation build :=
  (build_event_set event_identity std_sort ab_find_limit_events).
Local Abbreviation handle :=
  (handle_events event_identity calc_event_vel process_events).

(** The [catch] block writes the entries of the named identities only. *)
Lemma learned_elsewhere bodies (table : gmap EventKey double) named k :
  (forall x, x ∈ named -> event_identity x <> k) ->
  learned event_identity calc_event_vel bodies table named !! k = table !! k.
Proof.
  unfold learned. revert table.
  induction named as [|x named IH]; intros table Hk; simpl; [reflexivity|].
  rewrite IH.
  - apply lookup_insert_ne. apply Hk, list_elem_of_here.
  - intros y Hy. apply Hk, list_elem_of_further, Hy.
Qed.

Lemma handle_events_keeps_entry s k :
  (forall bodies' events' named,
      process_events (_bodies (preprocess_events s)) (_events (preprocess_events s))
        = ImpactToleranceException bodies' events' named ->
      forall x, x ∈ named -> event_identity x <> k) ->
  _event_tolerances (handle s) !! k = _event_tolerances s !! k.
Proof.
  intros Hnamed.
  destruct (process_events (_bodies (preprocess_events s))
              (_events (preprocess_events s)))
    as [bodies' events' | bodies' events' named] eqn:Hout.
  - destruct (preprocess_events_frame s) as (_ & Ht & _).
    unfold handle_events. cbv zeta.
    set (sp := preprocess_events s) in *.
    change (_bodies (set_process_events_calls (S (process_events_calls sp)) sp))
      with (_bodies sp).
    change (_events (set_process_events_calls (S (process_events_calls sp)) sp))
      with (_events sp).
    rewrite Hout. simpl. rewrite Ht. reflexivity.
  - destruct (handle_events_on_violation event_identity calc_event_vel
                process_events s bodies' events' named Hout) as (Htable & _).
    rewrite Htable. apply learned_elsewhere.
    apply (Hnamed bodies' events' named eq_refl).
Qed.

(** A search writes the table only in the [catch] block of the handler. *)
Lemma search_keeps_entry dt s h s' k :
  search dt s = Some (h, s') ->
  (forall s1 bodies' events' named,
      find_TOI calc_event_vel dt (build dt s) = Some (h, s1) ->
      process_events (_bodies (preprocess_events s1)) (_events (preprocess_events s1))
        = ImpactToleranceException bodies' events' named ->
      forall x, x ∈ named -> event_identity x <> k) ->
  _event_tolerances s' !! k = _event_tolerances s !! k.
Proof.
  unfold find_and_handle_si_events. cbv zeta.
  pose proof (build_event_set_keeps event_identity std_sort
                ab_find_limit_events dt s) as Hkeeps.
  set (sb := build dt s) in *.
  destruct (find_TOI calc_event_vel dt sb) as [[h1 s1]|] eqn:Htoi;
    simpl; [|discriminate].
  intros [= <- <-] Hnamed.
  destruct (find_TOI_outcome calc_event_vel dt sb h1 s1 Htoi) as [Hk1 _].
  destruct Hkeeps as (_ & _ & _ & _ & _ & Htol & _).
  destruct Hk1 as (Htol1 & _).
  destruct (dlt h1 dt).
  - rewrite handle_events_keeps_entry.
    + rewrite Htol1, Htol. reflexivity.
    + intros bodies' events' named. apply (Hnamed s1). reflexivity.
  - rewrite Htol1, Htol. reflexivity.
Qed.

(** C7.  Let the resolver throw a tolerance violation, and let [ev] be
    the last event of its identity that the exception names, [m] the
    velocity then measured for [ev].  The table then holds [|m| + epsilon]
    for that identity.  A later search keeps this entry unless its own
    resolver call throws naming the identity.  And in every search that
    finds the entry in the table, each candidate of that identity is built
    into the event set with this tolerance and its real time, and every
    built event of that identity carries this tolerance and classifies
    Resting, not Impacting, whenever its velocity [v] has [|v| <= |m|]. *)
Theorem learned_tolerance_makes_resting s bodies' events' pre ev post :
  (forall x e, event_identity (set_t_true x e) = event_identity e) ->
  (forall x e, event_identity (set_tol x e) = event_identity e) ->
  (forall l, std_sort l ≡ₚ l) ->
  process_events (_bodies (preprocess_events s)) (_events (preprocess_events s))
    = ImpactToleranceException bodies' events' (pre ++ ev :: post) ->
  (forall x, x ∈ post -> event_identity x <> event_identity ev) ->
  let s' := handle s in
  let m := calc_event_vel bodies' ev in
  let k := event_identity ev in
  _event_tolerances s' !! k = Some (fabs m + DBL_EPSILON) /\
  (forall dt (later : State) h later',
      search dt later = Some (h, later') ->
      (forall s1 bodies'' events'' named,
          find_TOI calc_event_vel dt (build dt later) = Some (h, s1) ->
          process_events (_bodies (preprocess_events s1))
            (_events (preprocess_events s1))
            = ImpactToleranceException bodies'' events'' named ->
          forall x, x ∈ named -> event_identity x <> k) ->
      _event_tolerances later' !! k = _event_tolerances later !! k) /\
  forall dt (later : State),
    _event_tolerances later !! k = Some (fabs m + DBL_EPSILON) ->
    (forall c,
        c ∈ candidate_events ab_find_limit_events dt later ->
        event_identity c = k ->
        set_tol (fabs m + DBL_EPSILON)
          (set_t_true (current_time later + t c * dt) c)
          ∈ _events (build dt later)) /\
    (forall e,
        e ∈ _events (build dt later) ->
        event_identity e = k ->
        tol e = fabs m + DBL_EPSILON /\
        forall bodies,
          fabs (calc_event_vel bodies e) <= fabs m ->
          determine_event_class calc_event_vel bodies e = eResting /\
          is_impacting calc_event_vel bodies e = false).
Proof.
  intros Htime Htol Hperm Hthrow Hpost s' m k.
  destruct (handle_events_on_violation event_identity calc_event_vel
              process_events s bodies' events' _ Hthrow) as (Htable & _).
  fold s' in Htable.
  assert (Hentry : _event_tolerances s' !! k = Some (fabs m + DBL_EPSILON)).
  { rewrite Htable.
    apply (learned_last event_identity calc_event_vel). exact Hpost. }
  split; [exact Hentry|].
  split; [intros dt later h later'; apply search_keeps_entry|].
  intros dt later Hstands.
  destruct (build_event_set_events event_identity std_sort
              ab_find_limit_events dt later) as [Hev _].
  cbv zeta in Hev.
  assert (Hstamp : forall c,
             event_identity c = k ->
             stamp event_identity dt later c
             = set_tol (fabs m + DBL_EPSILON)
                 (set_t_true (current_time later + t c * dt) c)).
  { intros c Hc. unfold stamp. rewrite Htime, Hc, Hstands. reflexivity. }
  split.
  - intros c Hc Hid. rewrite Hev, <- (Hstamp c Hid).
    apply list_elem_of_fmap. exists c. split; [reflexivity|].
    rewrite Hperm. exact Hc.
  - intros e Hin Hid. rewrite Hev in Hin.
    apply list_elem_of_fmap in Hin as (c & -> & _).
    assert (Hidc : event_identity c = k).
    { rewrite <- Hid. symmetry. unfold stamp. cbv zeta. rewrite Htime.
      destruct (_event_tolerances later !! event_identity c);
        [rewrite Htol|]; apply Htime. }
    rewrite (Hstamp c Hidc).
    set (e := set_tol (fabs m + DBL_EPSILON)
                (set_t_true (current_time later + t c * dt) c)).
    assert (Hstamped : tol e = fabs m + DBL_EPSILON) by reflexivity.
    split; [exact Hstamped|].
    intros bodies Hv.
    assert (Hclass : determine_event_class calc_event_vel bodies e = eResting).
    { unfold determine_event_class. rewrite Hstamped.
      pose proof (Qabs_nonneg m) as Hm. unfold fabs in *.
      assert (Heps : 0 < DBL_EPSILON) by reflexivity.
      assert (Hle : Qabs (calc_event_vel bodies e) <= Qabs m + DBL_EPSILON) by lra.
      pose proof (proj1 (Qabs_Qle_condition _ _) Hle) as [_ Hup].
      assert (Hgt : dgt (calc_event_vel bodies e) (Qabs m + DBL_EPSILON) = false).
      { apply dlt_false. exact Hup. }
      rewrite Hgt.
      assert (Hdle : dle (Qabs (calc_event_vel bodies e)) (Qabs m + DBL_EPSILON) = true).
      { apply dle_spec. exact Hle. }
      rewrite Hdle. reflexivity. }
    split; [exact Hclass|].
    unfold is_impacting. rewrite Hclass. reflexivity.
Qed.

End LearnedTolerance.

(** ** step *)

Section StepProperties.

Context {EventKey : Type} `{Countable EventKey}.
Variable event_identity : Event -> EventKey.
Variable calc_event_vel : list Body -> Event -> double.
Variable std_sort : list Event -> list Event.
Variable process_events : list Body -> list Event -> ProcessOutcome.
Variable ab_find_limit_events :
  Body -> VectorNd -> VectorNd -> double -> list Event.
Variable ode_both : Body -> VectorNd -> double -> double -> VectorNd.
Variable euler_velocity : Body -> VectorNd.
Local Abbreviation State := (Sim (EventKey := EventKey)).
Implicit Types (s : State).

Local Abbreviation search :=
  (find_and_handle_si_events event_identity calc_event_vel std_sort
     process_events ab_find_limit_events).
Local Abbreviation build :=
  (build_event_set event_identity std_sort ab_find_limit_events).
Local Abbreviation loop :=
  (step_loop event_identity calc_event_vel std_sort process_events
     ab_find_limit_events euler_velocity).
Local Abbreviation exits :=
  (step_loop_exits event_identity calc_event_vel std_sort process_events
     ab_find_limit_events euler_velocity).
Local Abbreviation run :=
  (step event_identity calc_event_vel std_sort process_events
     ab_find_limit_events ode_both euler_velocity).

Lemma integrate_si_Euler_loop step_size n s :
  let s' := for_range n
              (fun i s0 => set_bodies
                             (alter (integrate_body ode_both euler_velocity
                                       (current_time s0) step_size) i (_bodies s0))
                             s0) s in
  keeps_all_but_motion s s' /\
  _q0 s' = _q0 s /\ _qf s' = _qf s /\ _qdf s' = _qdf s /\
  forall i, _bodies s' !! i =
            if decide (i < n)%nat
            then integrate_body ode_both euler_velocity (current_time s) step_size
                   <$> _bodies s !! i
            else _bodies s !! i.
Proof.
  induction n as [|n IH]; simpl.
  - repeat split; try (intros i; destruct (decide (i < 0)%nat); [lia | reflexivity]).
  - rewrite for_range_S.
    destruct IH as (Hk & Hq0 & Hqf & Hqdf & Hb).
    set (sn := for_range n _ s) in *.
    destruct Hk as (Ht & Hev & Htol & Hcp & Hcd & Hcerr & Hcalls).
    cbn [current_time _events _event_tolerances contact_params
           collision_detectors cerr process_events_calls _q0 _qf _qdf
           _bodies set_bodies].
    split; [repeat split; assumption|].
    repeat split; try assumption.
    intros i. rewrite list_lookup_alter, Ht.
    destruct (decide (n = i)) as [->|Hne].
    + rewrite Hb. destruct (decide (i < i)%nat); [lia|].
      destruct (decide (i < S i)%nat); [reflexivity | lia].
    + rewrite Hb.
      destruct (decide (i < n)%nat), (decide (i < S n)%nat);
        try reflexivity; lia.
Qed.

(** X14.  The provisional integration at the start of a step integrates
    every body once, each from its own state at the current time, and
    caches one entry per body: the coordinates before, the coordinates
    after and the velocities after.  It touches neither the time, the
    events, the tolerance table nor the resolver. *)
Theorem begin_step_snapshot step_size s :
  let s' := begin_step ode_both euler_velocity step_size s in
  _bodies s'
    = integrate_body ode_both euler_velocity (current_time s) step_size
        <$> _bodies s /\
  _q0 s' = body_gc <$> _bodies s /\
  _qf s' = body_gc <$> _bodies s' /\
  _qdf s' = euler_velocity <$> _bodies s' /\
  length (_bodies s') = length (_bodies s) /\
  length (_q0 s') = length (_bodies s) /\
  length (_qf s') = length (_bodies s) /\
  length (_qdf s') = length (_bodies s) /\
  keeps_all_but_motion s s'.
Proof.
  intros s'.
  destruct (integrate_si_Euler_loop step_size (length (_bodies s))
              (set_q0 (get_coords s) s)) as (Hk & _ & _ & _ & Hb).
  assert (Hbodies : _bodies s'
                    = integrate_body ode_both euler_velocity (current_time s)
                        step_size <$> _bodies s).
  { apply list_eq. intros i. rewrite list_lookup_fmap.
    subst s'. unfold begin_step, integrate_si_Euler. cbv zeta.
    cbn [_bodies set_qf set_qdf set_q0]. cbn [_bodies set_q0 current_time] in Hb.
    rewrite Hb.
    destruct (decide (i < length (_bodies s))%nat) as [Hi|Hi]; [reflexivity|].
    apply not_lt in Hi. apply lookup_ge_None in Hi. rewrite Hi. reflexivity. }
  split; [exact Hbodies|].
  assert (Hlen : length (_bodies s') = length (_bodies s))
    by (rewrite Hbodies, length_fmap; reflexivity).
  assert (Hq0 : _q0 s' = body_gc <$> _bodies s).
  { subst s'. unfold begin_step, integrate_si_Euler. cbv zeta.
    cbn [_q0 set_qf set_qdf].
    destruct (integrate_si_Euler_loop step_size
                (length (_bodies (set_q0 (get_coords s) s)))
                (set_q0 (get_coords s) s)) as (_ & Hq0 & _).
    rewrite Hq0. reflexivity. }
  assert (Hqf : _qf s' = body_gc <$> _bodies s') by reflexivity.
  assert (Hqdf : _qdf s' = euler_velocity <$> _bodies s') by reflexivity.
  repeat split; try assumption.
  - rewrite Hq0, length_fmap. reflexivity.
  - rewrite Hqf, length_fmap. exact Hlen.
  - rewrite Hqdf, length_fmap. exact Hlen.
  - apply Hk.
  - apply Hk.
  - apply Hk.
  - apply Hk.
  - apply Hk.
  - apply Hk.
  - apply Hk.
Qed.

Lemma begin_step_keeps step_size s :
  keeps_all_but_motion s (begin_step ode_both euler_velocity step_size s).
Proof.
  destruct (integrate_si_Euler_loop step_size (length (_bodies s))
              (set_q0 (get_coords s) s)) as (Hk & _).
  exact Hk.
Qed.

(** A property kept by a search and by the update of the cached
    coordinates and velocities is kept by the loop of [step]. *)
Lemma step_loop_exits_invariant (P : State -> Prop) dt s s' :
  (forall dt s h s1, search dt s = Some (h, s1) -> P s -> P s1) ->
  (forall x s, P s -> P (set_qdf x s)) ->
  (forall dt i s, P s -> P (update_coordinates dt i s)) ->
  exits dt s s' -> P s -> P s'.
Proof.
  intros Hsearch Hqdf Hupd.
  induction 1 as [dt s Hdt | dt s h s' Hdt Hs Hh
                 | dt s h s1 s' Hdt Hs Hh _ IH]; intros HP.
  - exact HP.
  - eapply Hsearch; eassumption.
  - apply IH.
    apply (for_range_preserves P); [intros i s0; apply Hupd|].
    apply Hqdf. eapply Hsearch; eassumption.
Qed.

(** X15.  Whatever a step does, the tolerance table only grows: no
    identity is ever removed, and every entry that a step adds or changes
    is at least epsilon, so positive. *)
Theorem step_only_grows_tolerances fuel step_size s r s' :
  run fuel step_size s = Some (r, s') ->
  tolerances_grow (_event_tolerances s) (_event_tolerances s').
Proof.
  unfold step. cbv zeta.
  destruct (loop fuel step_size (begin_step ode_both euler_velocity step_size s))
    as [s1|] eqn:Hloop; simpl; [|discriminate].
  intros [= _ <-].
  apply step_loop_fuel_exits in Hloop.
  pose proof (begin_step_keeps step_size s) as (_ & _ & Htol & _).
  apply (step_loop_exits_invariant
           (fun s0 => tolerances_grow (_event_tolerances s) (_event_tolerances s0))
           _ _ _) in Hloop.
  - exact Hloop.
  - intros dt s0 h s2 Hs HP.
    eapply (tolerances_grow_trans _ _ _ HP).
    eapply search_tolerances_grow. exact Hs.
  - intros x s0 HP. exact HP.
  - intros dt i s0 HP. exact HP.
  - rewrite Htol. apply tolerances_grow_refl.
Qed.

(** X16.  A step of size zero or less returns at once, whatever the
    fuel: after the provisional integration no search is made, the
    resolver is not invoked, and the events, the tolerance table and the
    time are as before. *)
Theorem step_of_no_size fuel step_size s :
  step_size <= 0 ->
  exists s',
    run fuel step_size s = Some (step_size, s') /\
    s' = begin_step ode_both euler_velocity step_size s /\
    keeps_all_but_motion s s'.
Proof.
  intros Hsize. exists (begin_step ode_both euler_velocity step_size s).
  split; [|split; [reflexivity | apply begin_step_keeps]].
  unfold step. cbv zeta.
  assert (Hguard : dgt step_size 0 = false) by (apply dlt_false; exact Hsize).
  destruct fuel; simpl; rewrite Hguard; reflexivity.
Qed.

Lemma update_coordinates_time dt n s :
  current_time (for_range n (update_coordinates dt) s) = current_time s.
Proof. apply time_loop. reflexivity. Qed.

Lemma search_keeps_detectors dt s h s' :
  search dt s = Some (h, s') ->
  collision_detectors s' = collision_detectors s.
Proof.
  unfold find_and_handle_si_events. cbv zeta.
  pose proof (build_event_set_keeps event_identity std_sort
                ab_find_limit_events dt s) as Hkeeps.
  set (sb := build dt s) in *.
  destruct (find_TOI calc_event_vel dt sb) as [[h1 s1]|] eqn:Htoi;
    simpl; [|discriminate].
  intros [= <- <-].
  destruct (find_TOI_outcome calc_event_vel dt sb h1 s1 Htoi) as [Hk1 _].
  destruct Hkeeps as (_ & _ & _ & _ & _ & _ & _ & Hcd & _).
  destruct Hk1 as (_ & _ & Hcd1 & _).
  destruct (dlt h1 dt); [|congruence].
  destruct (handle_events_frame event_identity calc_event_vel process_events s1)
    as (_ & _ & _ & _ & _ & Hcdh).
  congruence.
Qed.

Lemma update_coordinates_detectors dt n s :
  collision_detectors (for_range n (update_coordinates dt) s)
    = collision_detectors s.
Proof.
  apply (for_range_preserves
           (fun s' => collision_detectors s' = collision_detectors s));
    [|reflexivity].
  intros i s' Hs'. exact Hs'.
Qed.

Lemma step_loop_time (detectors : list CollisionDetection) dt s s' :
  (forall l, std_sort l ≡ₚ l) ->
  (forall dt s e,
      collision_detectors s = detectors ->
      e ∈ candidate_events ab_find_limit_events dt s -> 0 <= t e) ->
  exits dt s s' ->
  collision_detectors s = detectors ->
  0 <= dt -> dt < DBL_MAX ->
  current_time s' == current_time s + dt.
Proof.
  intros Hperm Hdet.
  induction 1 as [dt s Hdt | dt s h s' Hdt Hs Hh
                 | dt s h s1 s' Hdt Hs Hh _ IH]; intros Hcd Hpos Hmax.
  - apply dlt_false in Hdt. lra.
  - apply dgt_spec in Hh.
    destruct (search_time event_identity calc_event_vel std_sort process_events
                ab_find_limit_events dt s h s' Hs)
      as [(_ & Ht) | (e0 & _ & _ & Hle & _)].
    + rewrite Ht. reflexivity.
    + lra.
  - apply dlt_false in Hh. apply dgt_spec in Hdt.
    pose proof (search_keeps_detectors dt s h s1 Hs) as Hcd1.
    destruct (search_time event_identity calc_event_vel std_sort process_events
                ab_find_limit_events dt s h s1 Hs)
      as [(-> & _) | (e0 & He0 & Hh0 & Hle & Ht)].
    + lra.
    + assert (Hnonneg : 0 <= t e0).
      { destruct (build_event_set_events event_identity std_sort
                    ab_find_limit_events dt s) as [Hev _].
        cbv zeta in Hev. rewrite Hev in He0.
        apply list_elem_of_fmap in He0 as (c & -> & Hc).
        rewrite stamp_time. apply (Hdet dt s); [exact Hcd|].
        rewrite <- (Hperm (candidate_events ab_find_limit_events dt s)).
        exact Hc. }
      assert (Hh_nonneg : 0 <= h).
      { rewrite Hh0. pose proof (Qmult_le_0_compat _ _ Hnonneg (Qlt_le_weak _ _ Hdt)).
        lra. }
      assert (IH' := IH ltac:(rewrite update_coordinates_detectors; cbn [collision_detectors set_qdf]; congruence)
                        ltac:(lra) ltac:(lra)).
      rewrite update_coordinates_time in IH'.
      cbn [current_time set_qdf] in IH'. rewrite Ht in IH'. lra.
Qed.

(** X17.  With candidate events of nonnegative normalized time and a
    sort that permutes, a step of a size between zero and the sentinel
    never moves the time back: when it returns, in however many rounds,
    the current time is not below what it was. *)
Theorem step_never_moves_time_back fuel step_size s r s' :
  (forall l, std_sort l ≡ₚ l) ->
  (forall dt s0 e,
      collision_detectors s0 = collision_detectors s ->
      e ∈ candidate_events ab_find_limit_events dt s0 -> 0 <= t e) ->
  0 <= step_size -> step_size < DBL_MAX ->
  run fuel step_size s = Some (r, s') ->
  current_time s <= current_time s'.
Proof.
  intros Hperm Hdet Hpos Hmax. unfold step. cbv zeta.
  destruct (loop fuel step_size (begin_step ode_both euler_velocity step_size s))
    as [s1|] eqn:Hloop; simpl; [|discriminate].
  intros [= _ <-].
  apply step_loop_fuel_exits in Hloop.
  pose proof (begin_step_keeps step_size s) as (Ht & _ & _ & _ & Hcd & _).
  pose proof (step_loop_time _ _ _ _ Hperm Hdet Hloop Hcd Hpos Hmax) as Htime.
  rewrite Ht in Htime. lra.
Qed.

End StepProperties.

(** ** check_violation *)

Lemma report_pairs_are_no_warnings
    (pairs : list (CollisionGeometry * CollisionGeometry)) :
  List.filter is_warning (map report_pair pairs) = [].
Proof. induction pairs as [|p pairs IH]; simpl; [reflexivity | exact IH]. Qed.

Lemma check_detector_warned_once time st cd :
  warned_once st -> warned_once (check_detector time st cd).
Proof.
  unfold warned_once, check_detector. intros Hst.
  destruct (is_collision cd 0); [|exact Hst].
  cbn [_simulation_violated violation_cerr].
  destruct (_simulation_violated st); cbn [negb].
  - rewrite List.filter_app, report_pairs_are_no_warnings, app_nil_r. exact Hst.
  - rewrite !List.filter_app, report_pairs_are_no_warnings, app_nil_r.
    rewrite length_app, Hst. reflexivity.
Qed.

Lemma check_violation_warned_once time detectors st :
  warned_once st -> warned_once (check_violation time detectors st).
Proof.
  unfold check_violation. revert st.
  induction detectors as [|cd detectors IH]; intros st Hst; simpl; [exact Hst|].
  apply IH, check_detector_warned_once, Hst.
Qed.

Lemma check_violation_flag time detectors st :
  _simulation_violated (check_violation time detectors st)
    = _simulation_violated st
      || existsb (fun cd => is_collision cd 0) detectors.
Proof.
  unfold check_violation. revert st.
  induction detectors as [|cd detectors IH]; intros st; simpl.
  - rewrite orb_false_r. reflexivity.
  - rewrite IH. unfold check_detector.
    destruct (is_collision cd 0); simpl.
    + rewrite orb_true_r. reflexivity.
    + reflexivity.
Qed.

Lemma check_violation_clear time detectors st :
  existsb (fun cd => is_collision cd 0) detectors = false ->
  check_violation time detectors st = st.
Proof.
  unfold check_violation. revert st.
  induction detectors as [|cd detectors IH]; intros st; simpl; [reflexivity|].
  intros Hnone. apply orb_false_iff in Hnone as [Hcd Hrest].
  unfold check_detector at 2. rewrite Hcd. apply IH, Hrest.
Qed.

(** X18.  Over any sequence of guarded interpenetration checks of a fresh
    simulator, the warning is written at most once: exactly once if some
    check finds a detector in collision, and then the flag is set; and
    nothing at all is written, nor the flag set, if none does. *)
Theorem interpenetration_is_reported_once
    (rounds : list (double * list CollisionQuery)) :
  let st := foldl guarded_check_violation (mkViolationState false []) rounds in
  let found := existsb (fun round => existsb (fun cd => is_collision cd 0)
                                             (snd round)) rounds in
  _simulation_violated st = found /\
  length (List.filter is_warning (violation_cerr st))
    = (if found then 1%nat else 0%nat) /\
  (found = false -> violation_cerr st = []).
Proof.
  cbv zeta.
  assert (Hgen : forall st0,
             warned_once st0 ->
             let st := foldl guarded_check_violation st0 rounds in
             let found := existsb (fun round => existsb (fun cd => is_collision cd 0)
                                                        (snd round)) rounds in
             warned_once st /\
             _simulation_violated st = _simulation_violated st0 || found /\
             (_simulation_violated st0 || found = false -> st = st0)).
  { induction rounds as [|[time detectors] rounds IH]; intros st0 Hst0; cbv zeta.
    - simpl. rewrite orb_false_r. auto.
    - cbn [foldl existsb snd].
      assert (Hstep : warned_once (guarded_check_violation st0 (time, detectors))).
      { unfold guarded_check_violation.
        destruct (_simulation_violated st0); simpl; [exact Hst0|].
        apply check_violation_warned_once, Hst0. }
      destruct (IH _ Hstep) as (Hw & Hflag & Hsame). cbv zeta in Hw, Hflag, Hsame.
      split; [exact Hw|].
      assert (Hflag1 : _simulation_violated
                         (guarded_check_violation st0 (time, detectors))
                       = _simulation_violated st0
                         || existsb (fun cd => is_collision cd 0) detectors).
      { unfold guarded_check_violation.
        destruct (_simulation_violated st0) eqn:Hv; simpl; [exact Hv|].
        rewrite check_violation_flag, Hv. reflexivity. }
      split.
      + rewrite Hflag, Hflag1, orb_assoc. reflexivity.
      + intros Hnone. rewrite orb_assoc in Hnone.
        rewrite Hsame by (rewrite Hflag1; exact Hnone).
        apply orb_false_iff in Hnone as [Hnone _].
        apply orb_false_iff in Hnone as [Hv Hcd].
        unfold guarded_check_violation. rewrite Hv. simpl.
        apply check_violation_clear, Hcd. }
  destruct (Hgen (mkViolationState false []) eq_refl) as (Hw & Hflag & Hsame).
  cbv zeta in Hw, Hflag, Hsame. simpl in Hflag, Hsame.
  split; [exact Hflag|]. split.
  - unfold warned_once in Hw. rewrite Hflag in Hw. exact Hw.
  - intros Hnone. rewrite (Hsame Hnone). reflexivity.
Qed.

(** ** load_from_xml and save_to_xml: the contact parameters *)

Section ContactParametersXMLProperties.

Variable XMLTree : Type.
Variable load_node : XMLTree -> BasePtr * BasePtr * ContactParameters.
Variable save_node : ContactParameters -> XMLTree.
Variable key_order :
  list (sorted_pair * ContactParameters) -> list (sorted_pair * ContactParameters).

Local Abbreviation load := (load_contact_parameters XMLTree load_node).
Local Abbreviation load_one := (load_contact_parameters_node XMLTree load_node).
Local Abbreviation objects := (node_objects XMLTree load_node).
Local Abbreviation parameters := (node_parameters XMLTree load_node).

Lemma load_nodes_lookup (nodes : list XMLTree)
    (cps : gmap sorted_pair ContactParameters) (pair : sorted_pair) :
  (forall node, node ∈ nodes -> objects node <> pair) ->
  foldl load_one cps nodes !! pair = cps !! pair.
Proof.
  revert cps. induction nodes as [|node nodes IH]; intros cps Hnone; simpl;
    [reflexivity|].
  rewrite IH by (intros n Hn; apply Hnone, list_elem_of_further, Hn).
  unfold load_contact_parameters_node.
  apply lookup_insert_ne. apply Hnone, list_elem_of_here.
Qed.

Lemma load_nodes_last (pre post : list XMLTree) (node : XMLTree)
    (cps : gmap sorted_pair ContactParameters) :
  (forall later, later ∈ post -> objects later <> objects node) ->
  foldl load_one cps (pre ++ node :: post) !! objects node
    = Some (parameters node).
Proof.
  intros Hpost. rewrite foldl_app. simpl.
  rewrite load_nodes_lookup by exact Hpost.
  unfold load_contact_parameters_node. apply lookup_insert_eq.
Qed.

Lemma load_nodes_origin (nodes : list XMLTree)
    (cps : gmap sorted_pair ContactParameters) pair c :
  foldl load_one cps nodes !! pair = Some c ->
  cps !! pair = Some c \/
  exists node, node ∈ nodes /\ objects node = pair /\ parameters node = c.
Proof.
  revert cps. induction nodes as [|node nodes IH]; intros cps; simpl; [auto|].
  intros Hfound. destruct (IH _ Hfound) as [Hin | (n & Hn & Hobj & Hpar)].
  - unfold load_contact_parameters_node in Hin.
    destruct (decide (objects node = pair)) as [Heq|Hne].
    + rewrite Heq, lookup_insert_eq in Hin. injection Hin as <-.
      right. exists node. split; [apply list_elem_of_here | auto].
    + rewrite lookup_insert_ne in Hin by exact Hne. left. exact Hin.
  - right. exists n. split; [apply list_elem_of_further, Hn | auto].
Qed.

(** X19.  Loading contact parameters from XML keeps the table when the
    node has no ContactParameters child; otherwise it discards every
    former entry: each entry of the new table comes from a child node, and
    for objects named by several child nodes the last node decides. *)
Theorem load_contact_parameters_replaces
    (cps : gmap sorted_pair ContactParameters) :
  load [] cps = cps /\
  (forall nodes pair c,
      nodes <> [] ->
      load nodes cps !! pair = Some c ->
      exists node, node ∈ nodes /\ objects node = pair /\ parameters node = c) /\
  (forall pre node post,
      (forall later, later ∈ post -> objects later <> objects node) ->
      load (pre ++ node :: post) cps !! objects node = Some (parameters node)).
Proof.
  split; [reflexivity|]. split.
  - intros nodes pair c Hnodes Hfound. unfold load_contact_parameters in Hfound.
    destruct nodes as [|node nodes]; [contradiction|].
    destruct (load_nodes_origin _ _ _ _ Hfound) as [Hempty | Hnode];
      [|exact Hnode].
    rewrite lookup_empty in Hempty. discriminate.
  - intros pre node post Hpost. unfold load_contact_parameters.
    destruct (pre ++ node :: post) eqn:Hl.
    + destruct pre; discriminate.
    + rewrite <- Hl. apply load_nodes_last. exact Hpost.
Qed.

(** X20.  Contact parameters that a child node gives for two geometries
    (no later node naming the same two) are what [get_contact_parameters]
    returns for these geometries after loading, in either order. *)
Theorem loaded_parameters_are_found
    (cps : gmap sorted_pair ContactParameters) pre node post
    (geom1 geom2 : CollisionGeometry) :
  objects node = make_sorted_pair (geom_ptr geom1) (geom_ptr geom2) ->
  (forall later, later ∈ post -> objects later <> objects node) ->
  let cps' := load (pre ++ node :: post) cps in
  get_contact_parameters cps' geom1 geom2 = Some (parameters node) /\
  get_contact_parameters cps' geom2 geom1 = Some (parameters node).
Proof.
  intros Hobj Hpost cps'.
  assert (Hfound : cps' !! make_sorted_pair (geom_ptr geom1) (geom_ptr geom2)
                   = Some (parameters node)).
  { subst cps'. rewrite <- Hobj. unfold load_contact_parameters.
    destruct (pre ++ node :: post) eqn:Hl.
    - destruct pre; discriminate.
    - rewrite <- Hl. apply load_nodes_last. exact Hpost. }
  unfold get_contact_parameters. split.
  - rewrite Hfound. reflexivity.
  - rewrite (make_sorted_pair_comm (geom_ptr geom2) (geom_ptr geom1)), Hfound.
    reflexivity.
Qed.



End ContactParametersXMLProperties.

(** ** The further properties at concrete inputs *)

Module MoreExampleFacts.
Import Examples MoreExamples.

Lemma no_limit_events_found (dt : double) (s : Sim (EventKey := sorted_pair)) :
  find_limit_events no_limit_events dt s = [].
Proof.
  unfold find_limit_events.
  generalize (seq 0 (length (_bodies s))). intros l.
  induction l as [|i l IH] using rev_ind; [reflexivity|].
  rewrite foldl_snoc, IH.
  destruct (_bodies s !! i) as [ab|]; [|reflexivity].
  destruct (body_is_articulated ab); reflexivity.
Qed.

Lemma head_on_candidates_nonnegative
    (dt : double) (s : Sim (EventKey := sorted_pair)) (e : Event) :
  collision_detectors s = [detector_head_on] ->
  e ∈ candidate_events no_limit_events dt s -> 0 <= t e.
Proof.
  intros Hcd. unfold candidate_events.
  rewrite Hcd, no_limit_events_found. simpl.
  intros He. apply list_elem_of_singleton in He. subst e. discriminate.
Qed.

Lemma two_at_a_quarter_sorted :
  StronglySorted time_le (_events two_at_a_quarter).
Proof.
  repeat constructor; unfold time_le; discriminate.
Qed.



End MoreExampleFacts.

Module MoreWitnesses.
Import Examples ExampleFacts MoreExamples MoreExampleFacts.

(** X4 on a geometry of a free rigid body and a geometry of a link. *)
Lemma get_contact_parameters_follows_levels_witness :
  get_contact_parameters two_entries (geometry 1 11) link_geometry2
    = get_contact_parameters_by_level two_entries (geometry 1 11) link_geometry2.
Proof.
  apply (get_contact_parameters_follows_levels two_entries
           (geometry 1 11) link_geometry2).
  left. reflexivity.
Defined.

(** X5 on two contacts, the first one with contact parameters: it is
    given them, the second one is left as it is, and one warning is
    written, for the second. *)
Lemma preprocess_events_warns_per_contact_witness :
  let s' := preprocess_events partly_parametrised in
  cerr s' = [warning_of colliding] /\
  _events s' !! 0%nat = Some (set_contact_parameters params_rubber touching) /\
  _events s' !! 1%nat = Some colliding.
Proof.
  cbv zeta.
  assert (Hreached : Forall (fun e => preprocess_reaches_contact e = true)
                       (_events partly_parametrised))
    by (repeat constructor).
  destruct (preprocess_events_warns_per_contact partly_parametrised Hreached)
    as (_ & Hcerr & _ & Hsame & Hdata).
  split; [|split].
  - rewrite Hcerr. vm_compute. reflexivity.
  - apply (Hdata 0%nat touching params_rubber); vm_compute; reflexivity.
  - apply (Hsame 1%nat colliding); [reflexivity|].
    right. right. vm_compute. reflexivity.
Defined.

(** X6 on the collision of two particles with a resolver that resolves. *)
Lemma handle_events_on_success_witness :
  let s' := handle_events geometry_pair line_velocity resolver_ok collision_found in
  _bodies s' = two_particles /\ _events s' = [head_on] /\
  _event_tolerances s' = _event_tolerances collision_found /\
  process_events_calls s' = S (process_events_calls collision_found) /\
  current_time s' = current_time collision_found.
Proof.
  apply (handle_events_on_success geometry_pair line_velocity resolver_ok
           collision_found two_particles [head_on]).
  vm_compute. reflexivity.
Defined.

(** X7 on the collision of two particles found at t = 1/2. *)
Lemma find_TOI_moves_positions_and_time_witness :
  exists s',
    find_TOI line_velocity 1 collision_found = Some (1 # 2, s') /\
    keeps_all_but_positions collision_found s' /\
    current_time s'
      = current_time collision_found
        + match _events s' with [] => 1 | _ => 1 # 2 end.
Proof.
  eexists ?[final].
  assert (Htoi : find_TOI line_velocity 1 collision_found = Some (1 # 2, ?final))
    by (vm_compute; reflexivity).
  split; [exact Htoi|].
  exact (find_TOI_moves_positions_and_time line_velocity 1 collision_found
           (1 # 2) _ Htoi).
Defined.

(** X8 on the same collision. *)
Lemma find_TOI_commits_positions_witness :
  exists s',
    find_TOI line_velocity 1 collision_found = Some (1 # 2, s') /\
    body_gc <$> _bodies s' = _q0 s' /\
    body_gv <$> _bodies s' = body_gv <$> _bodies collision_found.
Proof.
  eexists ?[final].
  assert (Htoi : find_TOI line_velocity 1 collision_found = Some (1 # 2, ?final))
    by (vm_compute; reflexivity).
  split; [exact Htoi|].
  match type of Htoi with
  | _ = Some (_, ?s1) => assert (Hcommitted : _events s1 <> []) by discriminate
  end.
  destruct (find_TOI_commits_positions line_velocity 1 collision_found
              (1 # 2) _ Htoi Hcommitted eq_refl) as (_ & Hq0 & Hgv & _).
  split; assumption.
Defined.

(** X9 on two contacts at t = 1/4, the second one Impacting, and a
    later contact: the two are committed, and both are earlier than the
    third, which is left out. *)
Lemma find_TOI_commits_first_group_witness :
  exists s',
    find_TOI line_velocity 1 two_at_a_quarter = Some (1 # 4, s') /\
    _events s' = [touching; colliding_early] /\
    forall e, e ∈ _events s' -> t e * 1 < t touching_later * 1.
Proof.
  eexists ?[final].
  assert (Htoi : find_TOI line_velocity 1 two_at_a_quarter = Some (1 # 4, ?final))
    by (vm_compute; reflexivity).
  split; [exact Htoi|]. split; [reflexivity|].
  match type of Htoi with
  | _ = Some (_, ?s1) => assert (Hcommitted : _events s1 <> []) by discriminate
  end.
  destruct (find_TOI_commits_first_group line_velocity 1 two_at_a_quarter
              (1 # 4) _ Htoi Hcommitted)
    as (e0 & n & _ & _ & _ & Hn & Hev & _ & Hgap).
  assert (Hlen : n = 2%nat).
  { apply (f_equal length) in Hev. rewrite length_take in Hev.
    cbn in Hev. cbn in Hn. lia. }
  subst n. intros e He. apply (Hgap e touching_later He). reflexivity.
Defined.

(** X10 on two contacts at t = 1/4, the second one Impacting, and a
    later contact: both contacts at t = 1/4 are committed. *)
Lemma find_TOI_keeps_equal_times_together_witness :
  exists s',
    find_TOI line_velocity 1 two_at_a_quarter = Some (1 # 4, s') /\
    _events s' !! 1%nat = Some colliding_early.
Proof.
  eexists ?[final].
  assert (Htoi : find_TOI line_velocity 1 two_at_a_quarter = Some (1 # 4, ?final))
    by (vm_compute; reflexivity).
  split; [exact Htoi|].
  match type of Htoi with
  | _ = Some (_, ?s1) => assert (Hcommitted : _events s1 <> []) by discriminate
  end.
  assert (Hdt : 0 <= 1) by discriminate.
  assert (Hnear : t colliding_early * 1 <= t touching * 1 + DBL_EPSILON)
    by (vm_compute; discriminate).
  exact (find_TOI_keeps_equal_times_together line_velocity 1 two_at_a_quarter
           (1 # 4) _ touching 1 colliding_early Htoi Hcommitted
           two_at_a_quarter_sorted Hdt eq_refl eq_refl Hnear).
Defined.

(** X12 on the lonely particle. *)
Lemma search_without_candidates_witness :
  exists s',
    find_and_handle_si_events geometry_pair line_velocity insertion_sort
      resolver_ok no_limit_events 1 lonely_particle = Some (DBL_MAX, s') /\
    _events s' = [] /\
    process_events_calls s' = process_events_calls lonely_particle /\
    _event_tolerances s' = _event_tolerances lonely_particle /\
    current_time s' = current_time lonely_particle + 1.
Proof.
  assert (Hbodies : Forall (fun b => body_is_articulated b = false)
                      (_bodies lonely_particle))
    by (repeat constructor).
  assert (Hdt : 1 <= DBL_MAX) by (vm_compute; discriminate).
  exact (search_without_candidates geometry_pair line_velocity insertion_sort
           resolver_ok no_limit_events 1 lonely_particle
           eq_refl eq_refl Hbodies Hdt).
Defined.

(** X13 on two particles on a collision course: the resolver is invoked
    once, the collision being found at 1/2 < 1. *)
Lemma search_invokes_resolver_once_witness :
  exists s',
    find_and_handle_si_events geometry_pair line_velocity insertion_sort
      resolver_throws no_limit_events 1 collision_course = Some (1 # 2, s') /\
    process_events_calls s'
      = (process_events_calls collision_course
         + if dlt (1 # 2) 1 then 1 else 0)%nat.
Proof.
  eexists ?[final].
  assert (Hsearch :
            find_and_handle_si_events geometry_pair line_velocity insertion_sort
              resolver_throws no_limit_events 1 collision_course
            = Some (1 # 2, ?final))
    by (vm_compute; reflexivity).
  split; [exact Hsearch|].
  exact (proj1 (search_invokes_resolver_once geometry_pair line_velocity
                  insertion_sort resolver_throws no_limit_events 1
                  collision_course (1 # 2) _ Hsearch)).
Defined.

(** X15 on the step of two particles in which the resolver throws. *)
Lemma step_only_grows_tolerances_witness :
  exists s',
    step geometry_pair line_velocity insertion_sort resolver_throws
      no_limit_events free_motion body_gv 2 1 collision_course = Some (1, s') /\
    tolerances_grow (_event_tolerances collision_course) (_event_tolerances s').
Proof.
  eexists ?[final].
  assert (Hstep :
            step geometry_pair line_velocity insertion_sort resolver_throws
              no_limit_events free_motion body_gv 2 1 collision_course
            = Some (1, ?final))
    by (vm_compute; reflexivity).
  split; [exact Hstep|].
  exact (step_only_grows_tolerances geometry_pair line_velocity insertion_sort
           resolver_throws no_limit_events free_motion body_gv 2 1
           collision_course 1 _ Hstep).
Defined.

(** X16 on a step of size zero. *)
Lemma step_of_no_size_witness :
  exists s',
    step geometry_pair line_velocity insertion_sort resolver_throws
      no_limit_events free_motion body_gv 0 0 collision_course = Some (0, s') /\
    s' = begin_step free_motion body_gv 0 collision_course /\
    keeps_all_but_motion collision_course s'.
Proof.
  assert (Hsize : 0 <= 0) by discriminate.
  exact (step_of_no_size geometry_pair line_velocity insertion_sort
           resolver_throws no_limit_events free_motion body_gv 0 0
           collision_course Hsize).
Defined.

(** X17 on the step of two particles in which the resolver throws: two
    rounds, and the time is not moved back. *)
Lemma step_never_moves_time_back_witness :
  exists s',
    step geometry_pair line_velocity insertion_sort resolver_throws
      no_limit_events free_motion body_gv 2 1 collision_course = Some (1, s') /\
    current_time collision_course <= current_time s'.
Proof.
  eexists ?[final].
  assert (Hstep :
            step geometry_pair line_velocity insertion_sort resolver_throws
              no_limit_events free_motion body_gv 2 1 collision_course
            = Some (1, ?final))
    by (vm_compute; reflexivity).
  split; [exact Hstep|].
  assert (Hpos : 0 <= 1) by discriminate.
  assert (Hmax : 1 < DBL_MAX) by reflexivity.
  exact (step_never_moves_time_back geometry_pair line_velocity
           insertion_sort resolver_throws no_limit_events free_motion body_gv
           2 1 collision_course 1 _ insertion_sort_perm
           (fun dt s0 e Hcd => head_on_candidates_nonnegative dt s0 e Hcd)
           Hpos Hmax Hstep).
Defined.

(** X20 on two nodes, the second one for the geometries 10 and 11. *)
Lemma loaded_parameters_are_found_witness :
  let cps' := load_contact_parameters ContactParameters read_node
                ([params_ice] ++ params_rubber :: []) ∅ in
  get_contact_parameters cps' (geometry 10 0) (geometry 11 1)
    = Some params_rubber /\
  get_contact_parameters cps' (geometry 11 1) (geometry 10 0)
    = Some params_rubber.
Proof.
  assert (Hpost : forall later : ContactParameters,
             later ∈ [] ->
             node_objects ContactParameters read_node later
             <> node_objects ContactParameters read_node params_rubber).
  { intros later Hin. apply elem_of_nil in Hin. destruct Hin. }
  exact (loaded_parameters_are_found ContactParameters read_node ∅
           [params_ice] params_rubber [] (geometry 10 0) (geometry 11 1)
           eq_refl Hpost).
Defined.



(** C7 on the collision of two particles: after the violation, the next
    search builds the contact of the same geometries with the learned
    tolerance, and it is Resting. *)
Lemma learned_tolerance_makes_resting_witness :
  let s' := handle_events geometry_pair line_velocity resolver_throws
              collision_being_handled in
  let m := line_velocity two_particles head_on in
  let e := set_tol (fabs m + DBL_EPSILON)
             (set_t_true (current_time s' + t head_on * (1 # 2)) head_on) in
  _event_tolerances s' !! geometry_pair head_on = Some (fabs m + DBL_EPSILON) /\
  e ∈ _events (build_event_set geometry_pair insertion_sort
                 no_limit_events (1 # 2) s') /\
  tol e = fabs m + DBL_EPSILON /\
  determine_event_class line_velocity two_particles e = eResting.
Proof.
  cbv zeta.
  assert (Htime : forall x e, geometry_pair (set_t_true x e) = geometry_pair e)
    by reflexivity.
  assert (Htol : forall x e, geometry_pair (set_tol x e) = geometry_pair e)
    by reflexivity.
  assert (Hthrow :
            resolver_throws
              (_bodies (preprocess_events collision_being_handled))
              (_events (preprocess_events collision_being_handled))
            = ImpactToleranceException two_particles [head_on] ([] ++ head_on :: []))
    by (vm_compute; reflexivity).
  assert (Hpost : forall x : Event, x ∈ [] -> geometry_pair x <> geometry_pair head_on).
  { intros x Hx. apply elem_of_nil in Hx. destruct Hx. }
  destruct (learned_tolerance_makes_resting geometry_pair line_velocity
              insertion_sort resolver_throws no_limit_events
              collision_being_handled two_particles [head_on] [] head_on []
              Htime Htol insertion_sort_perm Hthrow Hpost)
    as (Hentry & _ & Hlater).
  split; [exact Hentry|].
  destruct (Hlater (1 # 2) _ Hentry) as [Hbuilt Hclass].
  assert (Hcandidate :
            head_on ∈ candidate_events no_limit_events (1 # 2)
                        (handle_events geometry_pair line_velocity
                           resolver_throws collision_being_handled))
    by (vm_compute; apply list_elem_of_here).
  pose proof (Hbuilt head_on Hcandidate eq_refl) as Hin.
  split; [exact Hin|].
  destruct (Hclass _ Hin eq_refl) as [Hlearned Hresting].
  split; [exact Hlearned|].
  apply (Hresting two_particles). vm_compute. discriminate.
Defined.

End MoreWitnesses.

(** * The tolerance table at a concrete input *)

Module ConcreteTolerance.
Import Examples ExampleFacts.

(** C7, counterexample.  The bar comes down on the ground while it
    turns; the resolver throws naming its two ends, contacts of the same
    two geometries, for which the velocities -5 and -1 are measured.  The
    handler records 5 + epsilon and then overwrites it with 1 + epsilon.
    The next search finds the middle of the bar in contact, an event of
    the same identity with the velocity -3: its tolerance is 1 + epsilon,
    and although [|-3| <= |-5|] it is Impacting, not Resting. *)
Theorem later_named_event_overwrites_tolerance :
  let s' := handle_events geometry_pair point_velocity resolver_throws
              bar_landing in
  let built := _events (build_event_set geometry_pair insertion_sort
                          no_limit_events (1 # 2) s') in
  resolver_throws (_bodies (preprocess_events bar_landing))
    (_events (preprocess_events bar_landing))
    = ImpactToleranceException bar_and_ground [left_end; right_end]
        [left_end; right_end] /\
  geometry_pair left_end = geometry_pair right_end /\
  point_velocity bar_and_ground left_end = -5 /\
  point_velocity bar_and_ground right_end = -1 /\
  _event_tolerances s' !! geometry_pair left_end = Some (1 + DBL_EPSILON) /\
  exists e,
    built = [e] /\
    geometry_pair e = geometry_pair left_end /\
    tol e = 1 + DBL_EPSILON /\
    point_velocity (_bodies s') e = -3 /\
    fabs (point_velocity (_bodies s') e)
      <= fabs (point_velocity bar_and_ground left_end) /\
    determine_event_class point_velocity (_bodies s') e = eImpacting /\
    is_impacting point_velocity (_bodies s') e = true.
Proof.
  cbv zeta.
  repeat split; try (vm_compute; reflexivity).
  eexists. split; [vm_compute; reflexivity|].
  repeat split; try (vm_compute; reflexivity).
  vm_compute. discriminate.
Qed.

End ConcreteTolerance.
